(** * alice: chaining of context-aware HTTP handlers

    A shallow embedding of [chain.go] (package [alice]) and the proofs of
    its composition, immutability and delegation properties.

    Modelling choices, all taken from the Go source:

    - Go code is effectful.  Code supplied by the caller (middleware
      constructors, handlers) runs in the monad [Ext] over an opaque
      [World]; it may return normally, panic, or stop the process.
    - The package's own code runs in the monad [M] over a [State] that
      holds, besides the world, the store of backing arrays of
      [[]Constructor] slices.  Slices are headers (pointer, offset, length,
      capacity) into that store, so that aliasing between a receiver and a
      derived chain can be expressed, and the built-ins [make], [copy],
      [append] and re-slicing act on the store the way Go defines them.
    - The field [Chain.constructors] is unexported and every value stored
      in it comes out of [append] on a nil slice in [New]; caller code can
      therefore never reach a chain's backing array, which is why [Ext]
      computations act on the world only.
    - [calls] is a ghost trace: it records the index of every stored
      constructor that materialization invokes, and is read by no
      definition. *)

From stdpp Require Import base list strings.

(** ** Outcomes of a Go computation *)

(** A computation returns, or unwinds with a runtime panic, or ends the
    process ([log.Fatalf] prints its message and calls [os.Exit(1)]). *)
Inductive failure : Type :=
  | Panic (msg : string)
  | Fatal (msg : string).

(** The panic of the Go runtime on a call through a nil func value or a
    method call on a nil interface value. *)
Definition nil_dereference : failure :=
  Panic "runtime error: invalid memory address or nil pointer dereference".

Inductive outcome (S A : Type) : Type :=
  | Ret (a : A) (s : S)
  | Err (f : failure) (s : S).
Arguments Ret {S A} a s.
Arguments Err {S A} f s.

Definition omap {S A B : Type} (g : A -> B) (o : outcome S A) : outcome S B :=
  match o with
  | Ret a s => Ret (g a) s
  | Err f s => Err f s
  end.

Definition final_state {S A : Type} (o : outcome S A) : S :=
  match o with
  | Ret _ s => s
  | Err _ s => s
  end.

(** ** Slice headers *)

(** [base = None] is the nil slice.  [off] is the position of element 0
    inside the backing array, so that [s[lo:]] keeps the array. *)
Record slice : Type := mkSlice {
  base : option nat;
  off : nat;
  len : nat;
  cap : nat
}.

Definition nil_slice : slice := mkSlice None 0 0 0.

(** ** The host environment *)

(** What the package takes from outside: the types of context values,
    response writers and requests, the state caller code acts on, and the
    runtime's growth policy for [append].  Go leaves the capacity chosen by
    a growing [append] to the runtime: it is the needed length plus
    whatever [growslice_extra old_cap needed] the allocator's size classes
    add. *)
Class Host : Type := {
  Ctx : Type;
  RW : Type;
  Req : Type;
  World : Type;
  growslice_extra : nat -> nat -> nat
}.

Section Alice.

Context {host : Host}.

(** ** Caller-supplied code *)

Definition Ext (A : Type) : Type := World -> outcome World A.

Definition ext_ret {A : Type} (a : A) : Ext A := fun w => Ret a w.

Definition ext_bind {A B : Type} (m : Ext A) (k : A -> Ext B) : Ext B :=
  fun w =>
    match m w with
    | Ret a w' => k a w'
    | Err f w' => Err f w'
    end.

(** [type ContextHandlerFunc func(context.Context, http.ResponseWriter,
    *http.Request)]: a func value, possibly nil. *)
Definition ContextHandlerFunc : Type :=
  option (Ctx -> RW -> Req -> Ext unit).

(** [type ContextHandler interface { ServeHTTPContext(...) }]: an interface
    value is nil, or holds a [ContextHandlerFunc] (which may itself be a
    nil func), or holds a value of some other implementing type, given by
    its method. *)
Inductive ContextHandler : Type :=
  | HNil
  | HFunc (fn : ContextHandlerFunc)
  | HObj (serve : Ctx -> RW -> Req -> Ext unit).

(** [h != nil] on an interface value. *)
Definition is_nil (h : ContextHandler) : bool :=
  match h with
  | HNil => true
  | _ => false
  end.

(** [func (h ContextHandlerFunc) ServeHTTPContext(ctx, rw, r) { h(ctx, rw, r) }] *)
Definition ContextHandlerFunc_ServeHTTPContext
    (h : ContextHandlerFunc) (ctx : Ctx) (rw : RW) (r : Req) : Ext unit :=
  match h with
  | Some f => f ctx rw r
  | None => fun w => Err nil_dereference w
  end.

(** Dynamic dispatch of [ServeHTTPContext] on an interface value. *)
Definition ServeHTTPContext
    (h : ContextHandler) (ctx : Ctx) (rw : RW) (r : Req) : Ext unit :=
  match h with
  | HNil => fun w => Err nil_dereference w
  | HFunc fn => ContextHandlerFunc_ServeHTTPContext fn ctx rw r
  | HObj serve => serve ctx rw r
  end.

(** [type Constructor func(ContextHandler) ContextHandler]: a func value,
    possibly nil. *)
Definition Constructor : Type :=
  option (ContextHandler -> Ext ContextHandler).

Definition call_Constructor (f : Constructor) (h : ContextHandler)
    : Ext ContextHandler :=
  match f with
  | Some g => g h
  | None => fun w => Err nil_dereference w
  end.

(** ** Package state *)

Record State : Type := mkState {
  heap : list (list Constructor);
  world : World;
  calls : list nat
}.

Definition set_heap (st : State) (h : list (list Constructor)) : State :=
  mkState h (world st) (calls st).

Definition set_world (st : State) (w : World) : State :=
  mkState (heap st) w (calls st).

Definition log_call (i : nat) (st : State) : State :=
  mkState (heap st) (world st) (i :: calls st).

Definition M (A : Type) : Type := State -> outcome State A.

Definition ret {A : Type} (a : A) : M A := fun st => Ret a st.

Definition bind {A B : Type} (m : M A) (k : A -> M B) : M B :=
  fun st =>
    match m st with
    | Ret a st' => k a st'
    | Err f st' => Err f st'
    end.

Definition panic {A : Type} (msg : string) : M A :=
  fun st => Err (Panic msg) st.

(** Running caller code from package code: only the world moves. *)
Definition lift {A : Type} (e : Ext A) : M A :=
  fun st =>
    match e (world st) with
    | Ret a w => Ret a (set_world st w)
    | Err f w => Err f (set_world st w)
    end.

(** What a caller can see of a package computation: the result and the
    world, not the store of backing arrays nor the ghost trace. *)
Definition observe {A : Type} (o : outcome State A) : outcome World A :=
  match o with
  | Ret a st => Ret a (world st)
  | Err f st => Err f (world st)
  end.

Notation "'let*' x ':=' m 'in' k" := (bind m (fun x => k))
  (at level 10, x name, m at level 100, k at level 200, only parsing).

(** ** Slices over the store *)

(** The elements a slice denotes: [len] cells from [off] on in its array.
    [None] when the header does not lie inside the store, which no slice
    built by the operations below does. *)
Definition slice_elems (h : list (list Constructor)) (s : slice)
    : option (list Constructor) :=
  match base s with
  | None => if decide (len s = 0) then Some [] else None
  | Some l =>
      match h !! l with
      | Some arr =>
          if decide (off s + len s <= length arr)
          then Some (take (len s) (drop (off s) arr))
          else None
      | None => None
      end
  end.

(** Overwriting the cells [off s .. off s + length vs) of [s]'s array. *)
Definition store_elems (h : list (list Constructor)) (s : slice)
    (vs : list Constructor) : option (list (list Constructor)) :=
  match base s with
  | None => if decide (length vs = 0) then Some h else None
  | Some l =>
      match h !! l with
      | Some arr =>
          if decide (off s + length vs <= length arr)
          then Some (<[l := list_inserts (off s) vs arr]> h)
          else None
      | None => None
      end
  end.

(** [make([]Constructor, n)]: a new array of [n] nil funcs. *)
Definition builtin_make (n : nat) : M slice :=
  fun st =>
    Ret (mkSlice (Some (length (heap st))) 0 n n)
        (set_heap st (heap st ++ [replicate n None])).

(** [copy(dst, src)]: moves [min(len(dst), len(src))] elements, reading
    all of them before writing (the two may overlap), and returns the
    count. *)
Definition builtin_copy (dst src : slice) : M nat :=
  fun st =>
    let n := Nat.min (len dst) (len src) in
    match slice_elems (heap st) src with
    | Some vs =>
        match store_elems (heap st) dst (take n vs) with
        | Some h' => Ret n (set_heap st h')
        | None => Err (Panic "invalid memory address") st
        end
    | None => Err (Panic "invalid memory address") st
    end.

(** [s[lo:]] *)
Definition reslice_from (s : slice) (lo : nat) : M slice :=
  if decide (lo <= len s)
  then ret (mkSlice (base s) (off s + lo) (len s - lo) (cap s - lo))
  else panic "slice bounds out of range".

(** [s[i]] *)
Definition index (s : slice) (i : nat) : M Constructor :=
  fun st =>
    if decide (i < len s)
    then
      match slice_elems (heap st) s with
      | Some vs =>
          match vs !! i with
          | Some f => Ret f st
          | None => Err (Panic "index out of range") st
          end
      | None => Err (Panic "invalid memory address") st
      end
    else Err (Panic "index out of range") st.

(** [append(s, xs...)]: when the capacity of [s] suffices the new
    elements are written into [s]'s own array behind its last element;
    otherwise a larger array is allocated and receives the old elements
    followed by the new ones. *)
Definition builtin_append (s xs : slice) : M slice :=
  fun st =>
    match slice_elems (heap st) s, slice_elems (heap st) xs with
    | Some old, Some vs =>
        let need := len s + len xs in
        if decide (need <= cap s)
        then
          match store_elems (heap st)
                  (mkSlice (base s) (off s + len s) (len xs) (cap s - len s))
                  vs with
          | Some h' => Ret (mkSlice (base s) (off s) need (cap s)) (set_heap st h')
          | None => Err (Panic "invalid memory address") st
          end
        else
          let newcap := need + growslice_extra (cap s) need in
          Ret (mkSlice (Some (length (heap st))) 0 need newcap)
              (set_heap st
                 (heap st ++ [old ++ vs ++ replicate (newcap - need) None]))
    | _, _ => Err (Panic "invalid memory address") st
    end.

(** The slice a caller's variadic call [f(c1, ..., cn)] passes: nil when
    no argument is given, a new array holding the arguments otherwise. *)
Definition variadic (cs : list Constructor) : M slice :=
  fun st =>
    match cs with
    | [] => Ret nil_slice st
    | _ =>
        Ret (mkSlice (Some (length (heap st))) 0 (length cs) (length cs))
            (set_heap st (heap st ++ [cs]))
    end.

(** [log.Fatalf(msg)]: print and [os.Exit(1)]; nothing after it runs. *)
Definition log_Fatalf {A : Type} (msg : string) : M A :=
  fun st => Err (Fatal msg) st.

(** ** The package *)

(** [type ContextAdapter struct { ctx context.Context; handler ContextHandler }].
    The fields are unexported and never assigned after creation, so the
    pointer [*ContextAdapter] is modelled by the record it points to. *)
Record ContextAdapter : Type := mkContextAdapter {
  ctx : Ctx;
  handler : ContextHandler
}.

(** [func NewContextAdapter(c context.Context, handler ContextHandler) *ContextAdapter] *)
Definition NewContextAdapter (c : Ctx) (handler : ContextHandler)
    : ContextAdapter :=
  {| ctx := c; handler := handler |}.

(** [func (ca *ContextAdapter) ServeHTTP(rw, req) {
      ca.handler.ServeHTTPContext(ca.ctx, rw, req) }] *)
Definition ServeHTTP (ca : ContextAdapter) (rw : RW) (req : Req) : M unit :=
  lift (ServeHTTPContext (handler ca) (ctx ca) rw req).

(** [type Chain struct { constructors []Constructor }] *)
Record Chain : Type := mkChain {
  constructors : slice
}.

(** [func New(constructors ...Constructor) Chain {
      c := Chain{}
      c.constructors = append(c.constructors, constructors...)
      return c }] *)
Definition New (constructors_ : slice) : M Chain :=
  let c := mkChain nil_slice in
  let* s := builtin_append (constructors c) constructors_ in
  ret (mkChain s).

(** [final = c.constructors[i](final)]: the call of the func value read
    from the slice; the ghost trace notes the index once the callee is
    entered. *)
Definition invoke (i : nat) (f : Constructor) (final : ContextHandler)
    : M ContextHandler :=
  match f with
  | Some g => fun st => lift (g final) (log_call i st)
  | None => fun st => Err nil_dereference st
  end.

(** [for i := len(c.constructors) - 1; i >= 0; i-- {
      final = c.constructors[i](final) }]
    with [k = i + 1] iterations left. *)
Fixpoint then_loop (c : Chain) (k : nat) (final : ContextHandler)
    : M ContextHandler :=
  match k with
  | 0 => ret final
  | S i =>
      let* f := index (constructors c) i in
      let* final' := invoke i f final in
      then_loop c i final'
  end.

(** [func (c Chain) ThenWithContext(cnx context.Context, h ContextHandler) *ContextAdapter] *)
Definition ThenWithContext (c : Chain) (cnx : Ctx) (h : ContextHandler)
    : M ContextAdapter :=
  let* final := (if negb (is_nil h)
            then ret h
            else log_Fatalf "Error Contexthandler cant be null") in
  let* final := then_loop c (len (constructors c)) final in
  ret (NewContextAdapter cnx final).

(** [func (c Chain) ThenFuncWithContext(cnx context.Context, fn ContextHandlerFunc) *ContextAdapter] *)
Definition ThenFuncWithContext (c : Chain) (cnx : Ctx) (fn : ContextHandlerFunc)
    : M ContextAdapter :=
  match fn with
  | None => ThenWithContext c cnx HNil
  | Some _ => ThenWithContext c cnx (HFunc fn)
  end.

(** [func (c Chain) Append(constructors ...Constructor) Chain {
      newCons := make([]Constructor, len(c.constructors)+len(constructors))
      copy(newCons, c.constructors)
      copy(newCons[len(c.constructors):], constructors)
      newChain := New(newCons...)
      return newChain }] *)
Definition Append (c : Chain) (constructors_ : slice) : M Chain :=
  let* newCons := builtin_make (len (constructors c) + len constructors_) in
  let* _ := builtin_copy newCons (constructors c) in
  let* tl := reslice_from newCons (len (constructors c)) in
  let* _ := builtin_copy tl constructors_ in
  let* newChain := New newCons in
  ret newChain.

(** [func (c Chain) Extend(chain Chain) Chain {
      return c.Append(chain.constructors...) }] *)
Definition Extend (c : Chain) (chain : Chain) : M Chain :=
  Append c (constructors chain).

(** ** Reference definitions the code is compared with *)

(** [c1(c2(...(cn(h))))]: the innermost call runs first. *)
Fixpoint nested (cs : list Constructor) (h : ContextHandler)
    : Ext ContextHandler :=
  match cs with
  | [] => ext_ret h
  | c :: cs' => ext_bind (nested cs' h) (call_Constructor c)
  end.

(** [chain.Append(other's constructors in order)], the way the spec words
    [Extend]: the other chain's constructors are read out and passed as
    the arguments of a variadic call. *)
Definition Extend_spec (c : Chain) (chain : Chain) : M Chain :=
  fun st =>
    match slice_elems (heap st) (constructors chain) with
    | Some ds => (let* xs := variadic ds in Append c xs) st
    | None => Err (Panic "invalid memory address") st
    end.

(** The sequence a chain holds in a given store. *)
Definition chain_seq (st : State) (c : Chain) : option (list Constructor) :=
  slice_elems (heap st) (constructors c).

(** The cells of [s] were allocated after the store had [n] arrays. *)
Definition fresh_from (n : nat) (s : slice) : Prop :=
  match base s with
  | None => len s = 0
  | Some l => n <= l
  end.

(** The step from [st] to [st'] only allocated: every array of [st] is
    still there with the same cells, and neither the world nor the trace
    moved. *)
Definition only_allocates (st st' : State) : Prop :=
  heap st `prefix_of` heap st' /\ world st' = world st /\ calls st' = calls st.

(** What materialization against [h] amounts to for a caller, given the
    sequence [cs] the chain holds. *)
Definition materialized (cs : list Constructor) (cnx : Ctx) (h : ContextHandler)
    : Ext ContextAdapter :=
  fun w =>
    if is_nil h
    then Err (Fatal "Error Contexthandler cant be null") w
    else omap (NewContextAdapter cnx) (nested cs h w).

(** A constructor without effects, given by the function it computes. *)
Definition pure_constructor (f : ContextHandler -> ContextHandler) : Constructor :=
  Some (fun inner => ext_ret (f inner)).

(** The handler a well-behaved middleware returns: it runs its own part
    [before] and then calls the handler it wraps. *)
Definition wrapping (before : Ctx -> RW -> Req -> Ext unit)
    (inner : ContextHandler) : ContextHandler :=
  HObj (fun c rw r =>
    ext_bind (before c rw r) (fun _ => ServeHTTPContext inner c rw r)).

(** A request that passes the parts [befores] in order and then reaches
    the terminal handler [h]. *)
Definition traverse (befores : list (Ctx -> RW -> Req -> Ext unit))
    (h : ContextHandler) (c : Ctx) (rw : RW) (r : Req) : Ext unit :=
  foldr (fun before rest => ext_bind (before c rw r) (fun _ => rest))
        (ServeHTTPContext h c rw r) befores.

(** [New(c1, ..., cn)] and [c.Append(c1, ..., cn)] as a caller writes
    them, with the arguments listed. *)
Definition New_args (cs : list Constructor) : M Chain :=
  let* xs := variadic cs in New xs.

Definition Append_args (c : Chain) (cs : list Constructor) : M Chain :=
  let* xs := variadic cs in Append c xs.

(** The chains a client can hold in a state: the zero value [Chain{}],
    what [New], [Append] and [Extend] return, and any of these in a later
    state (the package never frees or overwrites an array). *)
Inductive built : State -> Chain -> Prop :=
  | built_zero st :
      built st (mkChain nil_slice)
  | built_New st xs vs c st' :
      slice_elems (heap st) xs = Some vs ->
      New xs st = Ret c st' ->
      built st' c
  | built_Append st c xs vs c' st' :
      built st c ->
      slice_elems (heap st) xs = Some vs ->
      Append c xs st = Ret c' st' ->
      built st' c'
  | built_Extend st c chain c' st' :
      built st c ->
      built st chain ->
      Extend c chain st = Ret c' st' ->
      built st' c'
  | built_later st st' c :
      built st c ->
      heap st `prefix_of` heap st' ->
      built st' c.

(** A write by whoever holds a slice into the array at [l]: the array is
    replaced by [arr], whatever cells the write touched. *)
Definition overwrite (st : State) (l : nat) (arr : list Constructor) : State :=
  set_heap st (<[l := arr]> (heap st)).

(** The parts [befores] run in order, then [last]. *)
Definition in_order (befores : list (Ctx -> RW -> Req -> Ext unit))
    (last : Ext unit) (c : Ctx) (rw : RW) (r : Req) : Ext unit :=
  foldr (fun before rest => ext_bind (before c rw r) (fun _ => rest))
        last befores.

End Alice.

Notation "'let*' x ':=' m 'in' k" := (bind m (fun x => k))
  (at level 10, x name, m at level 100, k at level 200, only parsing).

(** ** A concrete host, used to run the model *)

Module Demo.

(** Contexts are names, the world is the shared log that the middleware of
    the spec's scenarios append to, and [append] rounds capacities up to
    the next even number. *)
Definition demo_host : Host := {|
  Ctx := string;
  RW := unit;
  Req := unit;
  World := list string;
  growslice_extra := fun _ need => need mod 2
|}.

#[local] Existing Instance demo_host.

(** A middleware that appends [tag] to the log and then calls the handler
    it wraps. *)
Definition say (tag : string) : Ctx -> RW -> Req -> Ext unit :=
  fun _ _ _ w => Ret tt (w ++ [tag]).

Definition tagging (tag : string) : Constructor :=
  pure_constructor (wrapping (say tag)).

(** A terminal handler that appends [tag] to the log. *)
Definition terminal (tag : string) : ContextHandler :=
  HObj (say tag).

Definition m1 : Constructor := tagging "A".
Definition m2 : Constructor := tagging "B".
Definition m3 : Constructor := tagging "m3".
Definition m4 : Constructor := tagging "m4".

Definition st0 : State := mkState [] [] [].

(** The state after [stdChain := New(m1, m2)] and the evaluation of the
    arguments of [New(m3, m4)]: the argument slice and the chain's own
    array of the first call, then the argument slice [args34] and the
    array of the chain [ext1] of the second. *)
Definition st1 : State :=
  mkState [[m1; m2]; [m1; m2]; [m3; m4]; [m3; m4]] [] [].

Definition stdChain : Chain := mkChain (mkSlice (Some 1) 0 2 2).
Definition args34 : slice := mkSlice (Some 2) 0 2 2.
Definition ext1 : Chain := mkChain (mkSlice (Some 3) 0 2 2).

(** A constructor that panics, one that returns the nil handler, and a
    store with a chain around each. *)
Definition failing : Constructor :=
  Some (fun _ w => Err (Panic "boom") w).

Definition returns_nil : Constructor :=
  pure_constructor (fun _ => HNil).

Definition st_failing : State := mkState [[m1; failing; m2]] [] [].
Definition failingChain : Chain := mkChain (mkSlice (Some 0) 0 3 3).

Definition st_nil : State := mkState [[returns_nil]] [] [].
Definition nilChain : Chain := mkChain (mkSlice (Some 0) 0 1 1).

End Demo.

(** * Proofs *)

Section Store.

Context {host : Host}.

Implicit Types (h k : list (list Constructor)) (s xs : slice).
Implicit Types (vs cs ds : list Constructor) (st : State).

Lemma state_eta st : mkState (heap st) (world st) (calls st) = st.
Proof. by destruct st. Qed.

Lemma only_allocates_refl st : only_allocates st st.
Proof. by split. Qed.

Lemma only_allocates_trans st1 st2 st3 :
  only_allocates st1 st2 -> only_allocates st2 st3 -> only_allocates st1 st3.
Proof.
  intros (Hh & Hw & Hc) (Hh' & Hw' & Hc'). split; [|split].
  - by etrans.
  - by rewrite Hw'.
  - by rewrite Hc'.
Qed.

Lemma only_allocates_alloc st arr :
  only_allocates st (set_heap st (heap st ++ [arr])).
Proof. split; [by apply prefix_app_r|done]. Qed.

(** A slice denotes as many elements as its length says. *)
Lemma slice_elems_length h s vs :
  slice_elems h s = Some vs -> length vs = len s.
Proof.
  unfold slice_elems. destruct (base s) as [l|].
  - destruct (h !! l) as [arr|]; [|done].
    case_decide; [|done]. intros [= <-].
    rewrite length_take, length_drop. lia.
  - case_decide; [|done]. by intros [= <-].
Qed.

(** Allocation does not change what an existing slice denotes. *)
Lemma slice_elems_prefix h h' s vs :
  h `prefix_of` h' -> slice_elems h s = Some vs -> slice_elems h' s = Some vs.
Proof.
  intros [k ->]. unfold slice_elems. destruct (base s) as [l|]; [|done].
  destruct (h !! l) as [arr|] eqn:Hl; [|done].
  by rewrite (lookup_app_l_Some _ _ _ _ Hl).
Qed.

Lemma slice_elems_base_lt h s l vs :
  slice_elems h s = Some vs -> base s = Some l -> l < length h.
Proof.
  unfold slice_elems. intros H Hb. rewrite Hb in H.
  destruct (h !! l) as [arr|] eqn:Hl; [|done].
  by eapply lookup_lt_Some.
Qed.

Lemma slice_elems_nil h : slice_elems h nil_slice = Some [].
Proof. done. Qed.

(** The slice that spans a whole array, read back. *)
Lemma slice_elems_whole h arr rest n m :
  n = length arr ->
  slice_elems (h ++ [arr ++ rest]) (mkSlice (Some (length h)) 0 n m) = Some arr.
Proof.
  intros ->. unfold slice_elems; simpl.
  rewrite list_lookup_middle by done.
  rewrite decide_True by (rewrite length_app; lia).
  by rewrite drop_0, take_app_length.
Qed.

Lemma slice_elems_exact h arr n m :
  n = length arr ->
  slice_elems (h ++ [arr]) (mkSlice (Some (length h)) 0 n m) = Some arr.
Proof.
  intros Hn. rewrite <- (app_nil_r arr) at 1. by apply slice_elems_whole.
Qed.

(** Every index below [n] occurs once in [seq a n]. *)
Lemma seq_occurs_once a n i :
  length (filter (fun j => j = i) (seq a n)) =
  if decide (a <= i < a + n) then 1 else 0.
Proof.
  revert a. induction n as [|n IH]; intros a.
  - cbn. by rewrite decide_False by lia.
  - cbn [seq]. rewrite filter_cons. destruct (decide (a = i)) as [->|Hne].
    + cbn [length]. rewrite IH.
      rewrite decide_False by lia. by rewrite decide_True by lia.
    + rewrite IH. destruct (decide (S a <= i < S a + n)).
      * by rewrite decide_True by lia.
      * by rewrite decide_False by lia.
Qed.

Lemma store_last h arr arr' :
  <[length h := arr']> (h ++ [arr]) = h ++ [arr'].
Proof.
  rewrite insert_app_r_alt by done. by rewrite Nat.sub_diag.
Qed.

End Store.

Section Chains.

Context {host : Host}.

Implicit Types (s xs : slice).
Implicit Types (vs cs ds : list Constructor) (st : State) (c : Chain).

(** [New] copies: whatever slice it is given, the chain it returns holds
    the same elements in cells that did not exist before the call. *)
Lemma New_spec st xs vs :
  slice_elems (heap st) xs = Some vs ->
  exists c st',
    New xs st = Ret c st' /\
    only_allocates st st' /\
    chain_seq st' c = Some vs /\
    fresh_from (length (heap st)) (constructors c).
Proof.
  intros Hxs. pose proof (slice_elems_length _ _ _ Hxs) as Hlen.
  unfold New, bind, builtin_append. cbn [constructors].
  rewrite slice_elems_nil, Hxs. cbn [len cap nil_slice base off].
  case_decide as Hneed.
  - assert (len xs = 0) as Hz by lia.
    assert (vs = []) as -> by (apply nil_length_inv; lia).
    unfold store_elems. cbn [base length]. rewrite decide_True by done.
    eexists _, _. split; [reflexivity|].
    split; [|split].
    + destruct st; apply only_allocates_refl.
    + unfold chain_seq, slice_elems. cbn. by rewrite Hz.
    + cbn. by rewrite Hz.
  - eexists _, _. split; [reflexivity|].
    split; [apply only_allocates_alloc|]. split.
    + unfold chain_seq, ret. cbn [constructors heap set_heap].
      rewrite app_nil_l. apply slice_elems_whole. lia.
    + cbn. lia.
Qed.

(** [copy] into the array allocated last. *)
Lemma builtin_copy_last st h arr dst src vs :
  heap st = h ++ [arr] ->
  base dst = Some (length h) ->
  slice_elems (heap st) src = Some vs ->
  off dst + Nat.min (len dst) (len src) <= length arr ->
  builtin_copy dst src st =
    Ret (Nat.min (len dst) (len src))
        (set_heap st
           (h ++ [list_inserts (off dst) (take (Nat.min (len dst) (len src)) vs) arr])).
Proof.
  intros Hh Hb Hsrc Hfit. unfold builtin_copy. rewrite Hsrc.
  unfold store_elems. rewrite Hb, Hh, list_lookup_middle by done.
  pose proof (slice_elems_length _ _ _ Hsrc) as Hlen.
  rewrite decide_True by (rewrite length_take; lia).
  by rewrite store_last.
Qed.

(** [Append] reads the receiver and the arguments, and writes only into
    arrays it allocates itself. *)
Lemma Append_spec st c xs cs ds :
  chain_seq st c = Some cs ->
  slice_elems (heap st) xs = Some ds ->
  exists c' st',
    Append c xs st = Ret c' st' /\
    only_allocates st st' /\
    chain_seq st' c' = Some (cs ++ ds) /\
    fresh_from (length (heap st)) (constructors c').
Proof.
  intros Hc Hxs. unfold chain_seq in Hc.
  pose proof (slice_elems_length _ _ _ Hc) as Hn.
  pose proof (slice_elems_length _ _ _ Hxs) as Hm.
  set (n := len (constructors c)) in *. set (m := len xs) in *.
  set (st1 := set_heap st (heap st ++ [replicate (n + m) None])).
  set (st2 := set_heap st (heap st ++ [cs ++ replicate m None])).
  set (st3 := set_heap st (heap st ++ [cs ++ ds])).
  set (newCons := mkSlice (Some (length (heap st))) 0 (n + m) (n + m)).
  assert (builtin_copy newCons (constructors c) st1 = Ret n st2) as Hcopy1.
  { rewrite (builtin_copy_last st1 (heap st) (replicate (n + m) None) _ _ cs);
      [| done | done | | ].
    - cbn [len off newCons]. fold n. replace (Nat.min (n + m) n) with n by lia.
      rewrite take_ge by lia. rewrite replicate_add.
      rewrite list_inserts_0_r by (rewrite length_replicate; lia). done.
    - eapply slice_elems_prefix; [|exact Hc]. by apply prefix_app_r.
    - cbn [len off newCons]. rewrite length_replicate. lia. }
  assert (builtin_copy (mkSlice (Some (length (heap st))) (0 + n) (n + m - n) (n + m - n))
            xs st2 = Ret m st3) as Hcopy2.
  { rewrite (builtin_copy_last st2 (heap st) (cs ++ replicate m None) _ _ ds);
      [| done | done | | ].
    - cbn [len off]. fold m. replace (Nat.min (n + m - n) m) with m by lia.
      rewrite take_ge by lia.
      replace (0 + n) with (length cs + 0) by lia.
      rewrite list_inserts_app_r.
      rewrite <- (app_nil_r (replicate m None)).
      rewrite list_inserts_0_r by (rewrite length_replicate; lia).
      by rewrite app_nil_r.
    - eapply slice_elems_prefix; [|exact Hxs]. by apply prefix_app_r.
    - cbn [len off]. rewrite length_app, length_replicate. lia. }
  destruct (New_spec st3 newCons (cs ++ ds)) as (c' & st' & HNew & Halloc & Hseq & Hfresh).
  { cbn [heap st3 set_heap]. apply slice_elems_exact.
    rewrite length_app. lia. }
  exists c', st'. split; [|split; [|split]].
  - unfold Append, bind. fold n m. unfold builtin_make. fold st1 newCons.
    rewrite Hcopy1. unfold reslice_from. cbn [len newCons].
    rewrite decide_True by lia. unfold ret at 1.
    subst newCons. cbn [base off len cap] in *.
    rewrite Hcopy2, HNew. done.
  - eapply only_allocates_trans; [|exact Halloc]. apply only_allocates_alloc.
  - done.
  - unfold fresh_from in *. destruct (base (constructors c')); [|done].
    cbn [heap st3 set_heap] in Hfresh. rewrite length_app in Hfresh. lia.
Qed.

(** Reading [c.constructors[i]] inside the bounds. *)
Lemma index_spec st c cs i f :
  chain_seq st c = Some cs ->
  cs !! i = Some f ->
  index (constructors c) i st = Ret f st.
Proof.
  intros Hc Hi. unfold index. unfold chain_seq in Hc.
  pose proof (slice_elems_length _ _ _ Hc) as Hn.
  apply lookup_lt_Some in Hi as Hlt.
  rewrite decide_True by lia. by rewrite Hc, Hi.
Qed.

(** Applying the last constructor first. *)
Lemma nested_snoc cs f final w :
  nested (cs ++ [f]) final w =
  ext_bind (call_Constructor f final) (nested cs) w.
Proof.
  revert w. induction cs as [|c cs IH]; intros w; cbn [nested app].
  - unfold ext_bind, ext_ret. by destruct (call_Constructor f final w).
  - unfold ext_bind at 1. rewrite IH. unfold ext_bind.
    by destruct (call_Constructor f final w).
Qed.

(** The loop of [ThenWithContext], run for its last [k] iterations: it
    computes the nesting of the first [k] constructors around [final],
    leaves the store alone, and enters the constructors at the indices
    [k-1] down to [j], each once, where [j = 0] when it returns. *)
Lemma then_loop_spec c cs k :
  forall final st,
    chain_seq st c = Some cs ->
    k <= length cs ->
    exists j, j <= k /\
      match nested (take k cs) final (world st) with
      | Ret f w =>
          j = 0 /\
          then_loop c k final st =
            Ret f (mkState (heap st) w (seq j (k - j) ++ calls st))
      | Err e w =>
          then_loop c k final st =
            Err e (mkState (heap st) w (seq j (k - j) ++ calls st))
      end.
Proof.
  induction k as [|i IH]; intros final st Hc Hk.
  - exists 0. split; [done|]. cbn. unfold ext_ret, ret.
    split; [done|]. by destruct st.
  - destruct (lookup_lt_is_Some_2 cs i) as [f Hf]; [lia|].
    rewrite (take_S_r _ _ _ Hf), nested_snoc.
    assert (then_loop c (S i) final st =
            match invoke i f final st with
            | Ret final' st' => then_loop c i final' st'
            | Err e st' => Err e st'
            end) as ->.
    { cbn [then_loop]. unfold bind. by rewrite (index_spec _ _ _ _ _ Hc Hf). }
    unfold ext_bind. destruct f as [g|]; cbn [invoke call_Constructor].
    + unfold lift. cbn [world log_call].
      destruct (g final (world st)) as [final' w1|e w1].
      * destruct (IH final' (set_world (log_call i st) w1)) as (j & Hj & Hrun);
          [done|lia|].
        cbn [world set_world log_call heap calls] in Hrun.
        exists j. split; [lia|].
        replace (seq j (S i - j) ++ calls st)
          with (seq j (i - j) ++ i :: calls st).
        { done. }
        replace (S i - j) with (i - j + 1) by lia.
        rewrite seq_app, <- app_assoc. cbn. do 3 f_equal. lia.
      * exists i. split; [lia|].
        replace (S i - i) with 1 by lia. done.
    + exists (S i). split; [done|]. rewrite Nat.sub_diag. unfold panic.
      cbn. by destruct st.
Qed.

(** The whole loop, as [ThenWithContext] starts it. *)
Lemma then_loop_full st c cs final :
  chain_seq st c = Some cs ->
  exists j, j <= length cs /\
    match nested cs final (world st) with
    | Ret f w =>
        j = 0 /\
        then_loop c (len (constructors c)) final st =
          Ret f (mkState (heap st) w (seq j (length cs - j) ++ calls st))
    | Err e w =>
        then_loop c (len (constructors c)) final st =
          Err e (mkState (heap st) w (seq j (length cs - j) ++ calls st))
    end.
Proof.
  intros Hc. pose proof (slice_elems_length _ _ _ Hc) as Hn. rewrite <- Hn.
  destruct (then_loop_spec c cs (length cs) final st Hc) as (j & Hj & Hrun);
    [done|].
  rewrite firstn_all in Hrun. by exists j.
Qed.

(** With a terminal that is not nil, [ThenWithContext] is its loop
    followed by the creation of the adapter. *)
Lemma ThenWithContext_unfold st c cnx h :
  h <> HNil ->
  ThenWithContext c cnx h st =
    match then_loop c (len (constructors c)) h st with
    | Ret final st' => Ret (NewContextAdapter cnx final) st'
    | Err e st' => Err e st'
    end.
Proof. intros Hh. by destruct h. Qed.

(** With a nil terminal it stops at [log.Fatalf], before the loop. *)
Lemma ThenWithContext_nil st c cnx :
  ThenWithContext c cnx HNil st =
    Err (Fatal "Error Contexthandler cant be null") st.
Proof. done. Qed.

(** Materialization as its caller sees it. *)
Lemma ThenWithContext_observe st c cs cnx h :
  chain_seq st c = Some cs ->
  observe (ThenWithContext c cnx h st) = materialized cs cnx h (world st).
Proof.
  intros Hc. destruct (decide (is_nil h)) as [Hnil|Hnil].
  - by destruct h.
  - assert (h <> HNil) as Hh by (by intros ->).
    rewrite ThenWithContext_unfold by done. unfold materialized.
    destruct (is_nil h); [done|].
    destruct (then_loop_full st c cs h Hc) as (j & _ & Hrun).
    destruct (nested cs h (world st)) as [final w|e w].
    + destruct Hrun as [_ ->]. done.
    + rewrite Hrun. done.
Qed.

(** Materialization never writes to the store, whatever its outcome. *)
Lemma ThenWithContext_heap st c cs cnx h :
  chain_seq st c = Some cs ->
  heap (final_state (ThenWithContext c cnx h st)) = heap st.
Proof.
  intros Hc. destruct (decide (is_nil h)) as [Hnil|Hnil].
  - by destruct h.
  - assert (h <> HNil) as Hh by (by intros ->).
    rewrite ThenWithContext_unfold by done.
    destruct (then_loop_full st c cs h Hc) as (j & _ & Hrun).
    destruct (nested cs h (world st)) as [final w|e w].
    + destruct Hrun as [_ ->]. done.
    + rewrite Hrun. done.
Qed.

(** A materialization whose constructors all return has entered every
    stored constructor once, from the last index down to 0. *)
Lemma ThenWithContext_returns st c cs cnx h final w :
  chain_seq st c = Some cs ->
  h <> HNil ->
  nested cs h (world st) = Ret final w ->
  ThenWithContext c cnx h st =
    Ret (NewContextAdapter cnx final)
        (mkState (heap st) w (seq 0 (length cs) ++ calls st)).
Proof.
  intros Hc Hh Hnest. rewrite ThenWithContext_unfold by done.
  destruct (then_loop_full st c cs h Hc) as (j & _ & Hrun).
  rewrite Hnest in Hrun. destruct Hrun as [-> ->].
  by rewrite Nat.sub_0_r.
Qed.

(** Conversely, an adapter comes back only when every constructor was
    entered once and returned. *)
Lemma ThenWithContext_Ret_inv st c cs cnx h ca st' :
  chain_seq st c = Some cs ->
  ThenWithContext c cnx h st = Ret ca st' ->
  h <> HNil /\
  exists final,
    nested cs h (world st) = Ret final (world st') /\
    ca = NewContextAdapter cnx final /\
    heap st' = heap st /\
    calls st' = seq 0 (length cs) ++ calls st.
Proof.
  intros Hc Hrun. assert (h <> HNil) as Hh.
  { intros ->. by rewrite ThenWithContext_nil in Hrun. }
  split; [done|]. rewrite ThenWithContext_unfold in Hrun by done.
  destruct (then_loop_full st c cs h Hc) as (j & _ & Hloop).
  destruct (nested cs h (world st)) as [final w|e w].
  - destruct Hloop as [-> Hloop]. rewrite Hloop in Hrun.
    injection Hrun as <- <-. exists final. rewrite Nat.sub_0_r. done.
  - by rewrite Hloop in Hrun.
Qed.

(** The slice of a variadic call holds the arguments. *)
Lemma variadic_spec st cs :
  exists xs st',
    variadic cs st = Ret xs st' /\
    only_allocates st st' /\
    slice_elems (heap st') xs = Some cs /\
    fresh_from (length (heap st)) xs.
Proof.
  destruct cs as [|x cs].
  - exists nil_slice, st. split; [done|]. split; [apply only_allocates_refl|done].
  - eexists _, _. split; [reflexivity|].
    split; [apply only_allocates_alloc|]. split; [|by cbn].
    cbn [heap set_heap]. by apply slice_elems_exact.
Qed.

Lemma only_allocates_seq st st' c cs :
  only_allocates st st' -> chain_seq st c = Some cs -> chain_seq st' c = Some cs.
Proof. intros [Hh _]. by apply slice_elems_prefix. Qed.

Lemma fresh_from_le n n' s : n <= n' -> fresh_from n' s -> fresh_from n s.
Proof. unfold fresh_from. destruct (base s); lia. Qed.

Lemma New_args_spec st cs :
  exists c st',
    New_args cs st = Ret c st' /\
    only_allocates st st' /\
    chain_seq st' c = Some cs /\
    fresh_from (length (heap st)) (constructors c).
Proof.
  destruct (variadic_spec st cs) as (xs & st1 & Hv & Ha1 & Hxs & _).
  destruct (New_spec st1 xs cs Hxs) as (c & st' & HN & Ha2 & Hseq & Hfresh).
  exists c, st'. split; [|split; [|split]].
  - unfold New_args, bind. by rewrite Hv.
  - by eapply only_allocates_trans.
  - done.
  - eapply fresh_from_le; [|exact Hfresh].
    destruct Ha1 as [Hp _]. by apply prefix_length.
Qed.

Lemma Append_args_spec st c cs more :
  chain_seq st c = Some cs ->
  exists c' st',
    Append_args c more st = Ret c' st' /\
    only_allocates st st' /\
    chain_seq st' c' = Some (cs ++ more) /\
    fresh_from (length (heap st)) (constructors c').
Proof.
  intros Hc.
  destruct (variadic_spec st more) as (xs & st1 & Hv & Ha1 & Hxs & _).
  destruct (Append_spec st1 c xs cs more) as (c' & st' & HA & Ha2 & Hseq & Hfresh);
    [by eapply only_allocates_seq|done|].
  exists c', st'. split; [|split; [|split]].
  - unfold Append_args, bind. by rewrite Hv.
  - by eapply only_allocates_trans.
  - done.
  - eapply fresh_from_le; [|exact Hfresh].
    destruct Ha1 as [Hp _]. by apply prefix_length.
Qed.

(** A chain that holds something has an array, and a slice allocated
    after the store had [n] arrays is not one of the slices that were
    readable then. *)
Lemma fresh_from_distinct st s s' vs l :
  slice_elems (heap st) s = Some vs ->
  fresh_from (length (heap st)) s' ->
  base s' = Some l ->
  base s <> Some l /\ length (heap st) <= l.
Proof.
  intros Hs Hfresh Hb. unfold fresh_from in Hfresh. rewrite Hb in Hfresh.
  split; [|done]. intros Hbs.
  pose proof (slice_elems_base_lt _ _ _ _ Hs Hbs). lia.
Qed.

Lemma slice_elems_base_Some h s vs :
  slice_elems h s = Some vs -> vs <> [] -> exists l, base s = Some l.
Proof.
  unfold slice_elems. destruct (base s) as [l|]; [by eauto|].
  case_decide; [|done]. by intros [= <-].
Qed.

(** With nothing to store, [New] leaves the nil slice in the chain, and
    so does [Append]: no array is kept for an empty sequence. *)
Lemma New_of_nothing st xs c st' :
  New xs st = Ret c st' -> len xs = 0 -> constructors c = nil_slice.
Proof.
  unfold New, bind, builtin_append. cbn [constructors].
  rewrite slice_elems_nil. intros Hrun Hz.
  destruct (slice_elems (heap st) xs) as [vs|]; [|done].
  cbn [len cap nil_slice base off] in Hrun. rewrite Hz in Hrun.
  rewrite decide_True in Hrun by lia.
  unfold store_elems in Hrun. cbn [base] in Hrun.
  destruct (decide (length vs = 0)); [|done].
  by injection Hrun as <- <-.
Qed.

Lemma Append_of_nothing st c xs c' st' :
  Append c xs st = Ret c' st' ->
  len (constructors c) = 0 ->
  len xs = 0 ->
  constructors c' = nil_slice.
Proof.
  unfold Append, bind, builtin_make. intros Hrun Hn Hm.
  destruct (builtin_copy _ (constructors c) _) as [k1 s1|]; [|done].
  unfold reslice_from in Hrun. cbn [len] in Hrun.
  destruct (decide _); [|done]. unfold ret at 1 in Hrun.
  destruct (builtin_copy _ xs s1) as [k2 s2|]; [|done].
  destruct (New _ s2) as [c0 s3|] eqn:HNew; [|done].
  injection Hrun as <- <-.
  apply (New_of_nothing _ _ _ _ HNew). cbn [len]. lia.
Qed.

(** Every cell of a chain built after the store had the arrays of [st]
    lies in an array allocated since, which is none of those a chain
    readable in [st] points to. *)
Lemma fresh_cells st st' c c' cs cs' i :
  chain_seq st c = Some cs ->
  chain_seq st' c' = Some cs' ->
  fresh_from (length (heap st)) (constructors c') ->
  i < length cs' ->
  exists l,
    base (constructors c') = Some l /\
    length (heap st) <= l < length (heap st') /\
    base (constructors c) <> Some l.
Proof.
  intros Hc Hc' Hfresh Hi.
  destruct (slice_elems_base_Some _ _ _ Hc') as [l Hl].
  { intros ->. cbn in Hi. lia. }
  destruct (fresh_from_distinct st _ _ cs l Hc Hfresh Hl) as [Hne Hle].
  pose proof (slice_elems_base_lt _ _ _ _ Hc' Hl).
  exists l. split; [done|]. split; [lia|done].
Qed.

(** Constructors without effects nest as plain function application. *)
Lemma nested_pure fs h w :
  nested (pure_constructor <$> fs) h w = Ret (foldr (fun f x => f x) h fs) w.
Proof.
  induction fs as [|f fs IH]; [done|].
  cbn [fmap list_fmap nested foldr]. unfold ext_bind.
  change (list_fmap _ _ pure_constructor fs) with (pure_constructor <$> fs).
  by rewrite IH.
Qed.

(** Dispatching to nested wrapping handlers runs the outermost part
    first. *)
Lemma ServeHTTPContext_wrapping befores h (cnx : Ctx) rw r w :
  ServeHTTPContext (foldr (fun f x => f x) h (wrapping <$> befores)) cnx rw r w
  = traverse befores h cnx rw r w.
Proof.
  revert w. induction befores as [|b bs IH]; intros w; [done|].
  cbn [fmap list_fmap foldr traverse ServeHTTPContext wrapping].
  unfold ext_bind. destruct (b cnx rw r w) as [[] w'|e w']; [|done].
  apply IH.
Qed.

(** Every chain a client can hold is readable: the hypothesis
    [chain_seq st c = Some cs] of the properties below holds for it. *)
Lemma built_readable st c :
  built st c -> exists cs, chain_seq st c = Some cs.
Proof.
  induction 1 as [st|st xs vs c st' Hxs HNew
                 |st c xs vs c' st' _ [cs Hc] Hxs HApp
                 |st c d c' st' _ [cs Hc] _ [ds Hd] HExt
                 |st st' c _ [cs Hc] Hpre].
  - by exists [].
  - destruct (New_spec st xs vs Hxs) as (c0 & st0 & HNew0 & _ & Hseq & _).
    rewrite HNew in HNew0. injection HNew0 as <- <-. by exists vs.
  - destruct (Append_spec st c xs cs vs Hc Hxs) as (c0 & st0 & HApp0 & _ & Hseq & _).
    rewrite HApp in HApp0. injection HApp0 as <- <-. by exists (cs ++ vs).
  - destruct (Append_spec st c (constructors d) cs ds Hc Hd)
      as (c0 & st0 & HApp0 & _ & Hseq & _).
    unfold Extend in HExt. rewrite HExt in HApp0. injection HApp0 as <- <-.
    by exists (cs ++ ds).
  - exists cs. by eapply slice_elems_prefix.
Qed.

(** No run of the loop of [ThenWithContext] writes to the store, readable
    chain or not. *)
Lemma then_loop_heap c k :
  forall final st, heap (final_state (then_loop c k final st)) = heap st.
Proof.
  induction k as [|i IH]; intros final st; [done|].
  cbn [then_loop]. unfold bind, index.
  destruct (decide (i < len (constructors c))); [|done].
  destruct (slice_elems (heap st) (constructors c)) as [vs|]; [|done].
  destruct (vs !! i) as [[g|]|]; [|done|done].
  cbn [invoke]. unfold lift. cbn [world log_call].
  destruct (g final (world st)) as [final' w|e w]; [|done].
  by rewrite IH.
Qed.

End Chains.

(** * The properties of the package *)

Section Properties.

Context {host : Host}.

Implicit Types (s xs : slice) (vs cs ds : list Constructor).
Implicit Types (st : State) (c d : Chain) (cnx : Ctx) (h : ContextHandler).

(** C1. For the chain [New(c1, ..., cn)], a context and a terminal handler
    that is not nil, [ThenWithContext] run in any later state returns, as
    far as its caller can see, the adapter that holds [c1(c2(...(cn(h))))],
    the innermost call [cn(h)] being made first and [c1] last.  When the
    constructors are plain functions the adapter is exactly the one that
    holds their nested application and the indices entered are [n-1] down
    to [0] (the trace lists the latest call first); and when each is a
    middleware that runs its own part before calling the handler it wraps,
    a dispatched request passes the part of [c1] first, then that of [c2],
    ..., then that of [cn], and then reaches [h]. *)
Theorem ThenWithContext_nests_in_order cs cnx h st0 :
  h <> HNil ->
  exists c st,
    New_args cs st0 = Ret c st /\
    forall st', heap st `prefix_of` heap st' ->
      observe (ThenWithContext c cnx h st') =
        omap (NewContextAdapter cnx) (nested cs h (world st')) /\
      (forall fs, cs = pure_constructor <$> fs ->
         ThenWithContext c cnx h st' =
           Ret (NewContextAdapter cnx (foldr (fun f x => f x) h fs))
               (mkState (heap st') (world st')
                        (seq 0 (length cs) ++ calls st'))) /\
      (forall befores rw req, cs = pure_constructor <$> (wrapping <$> befores) ->
         exists ca st'',
           ThenWithContext c cnx h st' = Ret ca st'' /\
           world st'' = world st' /\
           observe (ServeHTTP ca rw req st'') =
             traverse befores h cnx rw req (world st'')).
Proof.
  intros Hh.
  destruct (New_args_spec st0 cs) as (c & st & HNew & _ & Hseq & _).
  exists c, st. split; [done|]. intros st' Hpre.
  assert (chain_seq st' c = Some cs) as Hseq'
    by (by eapply slice_elems_prefix).
  assert (forall fs, cs = pure_constructor <$> fs ->
    ThenWithContext c cnx h st' =
      Ret (NewContextAdapter cnx (foldr (fun f x => f x) h fs))
          (mkState (heap st') (world st') (seq 0 (length cs) ++ calls st')))
    as Hpure.
  { intros fs Hfs. apply ThenWithContext_returns; [done|done|].
    rewrite Hfs. apply nested_pure. }
  split; [|split].
  - rewrite (ThenWithContext_observe _ _ cs) by done. unfold materialized.
    by destruct h.
  - done.
  - intros befores rw req Hcs. eexists _, _.
    split; [by apply Hpure|]. split; [done|].
    unfold ServeHTTP, lift. cbn [handler ctx NewContextAdapter world].
    rewrite ServeHTTPContext_wrapping.
    by destruct (traverse befores h cnx rw req (world st')).
Qed.

(** C2. For every chain and every context, [ThenWithContext] with a nil
    terminal handler stops at [log.Fatalf]: the outcome is the fatal error
    with the state untouched (no constructor entered), never an adapter,
    and so no handler stands in for the missing terminal. *)
Theorem ThenWithContext_nil_is_fatal c cnx st :
  ThenWithContext c cnx HNil st =
    Err (Fatal "Error Contexthandler cant be null") st /\
  forall ca st', ThenWithContext c cnx HNil st <> Ret ca st'.
Proof. split; [done|]. intros ca st'. by rewrite ThenWithContext_nil. Qed.

(** C8. For every chain and context, [ThenFuncWithContext] with a nil
    function is [ThenWithContext] with a nil handler, and so ends in the
    same fatal error. *)
Theorem ThenFuncWithContext_nil_is_fatal c cnx st :
  ThenFuncWithContext c cnx None st = ThenWithContext c cnx HNil st /\
  ThenFuncWithContext c cnx None st =
    Err (Fatal "Error Contexthandler cant be null") st.
Proof. done. Qed.

(** C9. For every adapter, response writer and request, [ServeHTTP] is the
    call of the held handler's [ServeHTTPContext] with the held context,
    the writer and the request: the caller sees the outcome of that call
    and nothing else, the store and the trace stay as they were, and the
    method that runs is the one of the value the handler holds. *)
Theorem ServeHTTP_delegates (ca : ContextAdapter) (rw : RW) (req : Req) st :
  ServeHTTP ca rw req st =
    lift (ServeHTTPContext (handler ca) (ctx ca) rw req) st /\
  observe (ServeHTTP ca rw req st) =
    ServeHTTPContext (handler ca) (ctx ca) rw req (world st) /\
  heap (final_state (ServeHTTP ca rw req st)) = heap st /\
  calls (final_state (ServeHTTP ca rw req st)) = calls st /\
  match handler ca with
  | HObj serve =>
      observe (ServeHTTP ca rw req st) = serve (ctx ca) rw req (world st)
  | HFunc (Some f) =>
      observe (ServeHTTP ca rw req st) = f (ctx ca) rw req (world st)
  | HFunc None | HNil =>
      exists msg, ServeHTTP ca rw req st = Err (Panic msg) st
  end.
Proof.
  assert (observe (ServeHTTP ca rw req st) =
          ServeHTTPContext (handler ca) (ctx ca) rw req (world st)) as Hobs.
  { unfold ServeHTTP, lift.
    by destruct (ServeHTTPContext (handler ca) (ctx ca) rw req (world st)). }
  split; [done|]. split; [done|]. split; [|split].
  - unfold ServeHTTP, lift.
    by destruct (ServeHTTPContext (handler ca) (ctx ca) rw req (world st)).
  - unfold ServeHTTP, lift.
    by destruct (ServeHTTPContext (handler ca) (ctx ca) rw req (world st)).
  - rewrite Hobs. unfold ServeHTTP, lift.
    destruct (handler ca) as [|[f|]|serve]; cbn; [|done| |done].
    all: eexists; by destruct st.
Qed.

(** C6. For every context and terminal handler that is not nil, the empty
    chain [New()] materializes, in any state, to the adapter that holds the
    terminal handler itself; no constructor is entered, and dispatching
    through the adapter is the call of [h] with the bound context. *)
Theorem empty_chain_is_terminal cnx h st0 :
  h <> HNil ->
  exists c,
    New_args [] st0 = Ret c st0 /\
    forall st,
      ThenWithContext c cnx h st = Ret (NewContextAdapter cnx h) st /\
      handler (NewContextAdapter cnx h) = h /\
      forall rw req,
        ServeHTTP (NewContextAdapter cnx h) rw req st =
          lift (ServeHTTPContext h cnx rw req) st.
Proof.
  intros Hh. exists (mkChain nil_slice). split.
  - by destruct st0.
  - intros st. split; [|done]. by destruct h.
Qed.

(** C4. For every chain [c] and every slice of further constructors,
    [c.Append(more...)] returns a chain, held in cells allocated by the
    call, whose sequence is the sequence of [c] followed by the given
    constructors in their order. *)
Theorem Append_sequence st c xs cs more :
  chain_seq st c = Some cs ->
  slice_elems (heap st) xs = Some more ->
  exists c' st',
    Append c xs st = Ret c' st' /\
    chain_seq st' c' = Some (cs ++ more) /\
    fresh_from (length (heap st)) (constructors c').
Proof.
  intros Hc Hxs.
  destruct (Append_spec st c xs cs more Hc Hxs) as (c' & st' & HA & _ & Hseq & Hf).
  by exists c', st'.
Qed.

(** C5. For every two chains [c] and [d], [c.Extend(d)] is [c.Append]
    applied to the constructors of [d]: it is that very call on [d]'s
    slice, and it agrees with the call that lists [d]'s constructors as
    arguments in the sequence of the result, in leaving every existing
    array (so the receiver and [d]) as it was, and in what its result
    materializes to. *)
Theorem Extend_is_Append st c d cs ds :
  chain_seq st c = Some cs ->
  chain_seq st d = Some ds ->
  Extend c d st = Append c (constructors d) st /\
  exists c1 st1 c2 st2,
    Extend c d st = Ret c1 st1 /\
    Extend_spec c d st = Ret c2 st2 /\
    Append_args c ds st = Ret c2 st2 /\
    chain_seq st1 c1 = Some (cs ++ ds) /\
    chain_seq st2 c2 = Some (cs ++ ds) /\
    only_allocates st st1 /\
    only_allocates st st2 /\
    chain_seq st1 c = Some cs /\
    chain_seq st2 c = Some cs /\
    forall cnx h,
      observe (ThenWithContext c1 cnx h st1) =
      observe (ThenWithContext c2 cnx h st2).
Proof.
  intros Hc Hd. split; [done|].
  destruct (Append_spec st c (constructors d) cs ds Hc Hd)
    as (c1 & st1 & HA1 & Ha1 & Hseq1 & _).
  destruct (Append_args_spec st c cs ds Hc) as (c2 & st2 & HA2 & Ha2 & Hseq2 & _).
  exists c1, st1, c2, st2. split; [done|]. split.
  { unfold Extend_spec. unfold chain_seq in Hd. by rewrite Hd. }
  do 5 (split; [done|]).
  split; [by eapply only_allocates_seq|].
  split; [by eapply only_allocates_seq|].
  intros cnx h.
  rewrite (ThenWithContext_observe st1 c1 (cs ++ ds)) by done.
  rewrite (ThenWithContext_observe st2 c2 (cs ++ ds)) by done.
  destruct Ha1 as (_ & -> & _). by destruct Ha2 as (_ & -> & _).
Qed.

(** C3. For every chain [c1] and slice of constructors [x],
    [c1.Append(x...)], and likewise [c1.Extend] with a chain that holds
    [x], only allocates: every array that existed keeps its cells, so the
    receiver holds what it held, the array of the result is none of the
    receiver's, materializing [c1] afterwards is what it was before, and
    appending further to either chain leaves the sequence of the other as
    it is. *)
Theorem Append_leaves_receiver st c1 x cs ds :
  chain_seq st c1 = Some cs ->
  slice_elems (heap st) x = Some ds ->
  exists c2 st',
    Append c1 x st = Ret c2 st' /\
    Extend c1 (mkChain x) st = Ret c2 st' /\
    only_allocates st st' /\
    chain_seq st' c1 = Some cs /\
    chain_seq st' c2 = Some (cs ++ ds) /\
    (forall l, base (constructors c2) = Some l ->
       base (constructors c1) <> Some l /\ length (heap st) <= l) /\
    (forall cnx h,
       observe (ThenWithContext c1 cnx h st') =
       observe (ThenWithContext c1 cnx h st)) /\
    (forall y ys, slice_elems (heap st') y = Some ys ->
       exists c3 st3,
         Append c2 y st' = Ret c3 st3 /\
         chain_seq st3 c3 = Some ((cs ++ ds) ++ ys) /\
         chain_seq st3 c1 = Some cs /\
         chain_seq st3 c2 = Some (cs ++ ds)) /\
    (forall y ys, slice_elems (heap st') y = Some ys ->
       exists c3 st3,
         Append c1 y st' = Ret c3 st3 /\
         chain_seq st3 c3 = Some (cs ++ ys) /\
         chain_seq st3 c1 = Some cs /\
         chain_seq st3 c2 = Some (cs ++ ds)).
Proof.
  intros Hc Hx.
  destruct (Append_spec st c1 x cs ds Hc Hx) as (c2 & st' & HA & Ha & Hseq & Hf).
  assert (chain_seq st' c1 = Some cs) as Hc' by (by eapply only_allocates_seq).
  exists c2, st'. do 5 (split; [done|]). split; [|split; [|split]].
  - intros l Hl. by eapply fresh_from_distinct.
  - intros cnx h.
    rewrite (ThenWithContext_observe st' c1 cs), (ThenWithContext_observe st c1 cs)
      by done.
    by destruct Ha as (_ & -> & _).
  - intros y ys Hy.
    destruct (Append_spec st' c2 y (cs ++ ds) ys Hseq Hy)
      as (c3 & st3 & HA3 & Ha3 & Hseq3 & _).
    exists c3, st3. split; [done|]. split; [done|].
    split; by eapply only_allocates_seq.
  - intros y ys Hy.
    destruct (Append_spec st' c1 y cs ys Hc' Hy)
      as (c3 & st3 & HA3 & Ha3 & Hseq3 & _).
    exists c3, st3. split; [done|]. split; [done|].
    split; by eapply only_allocates_seq.
Qed.

(** C10 (amended). For every chain [c], [c.Append()] without arguments
    and [c.Extend(New())] each return a chain whose sequence is that of
    [c], element for element, so that it materializes to what [c]
    materializes to.  When the sequence is not empty the result holds an
    array that the call allocated, which is not the receiver's; when it
    is empty the result holds the nil slice, and so no array at all. *)
Theorem Append_nothing_copies st c cs :
  chain_seq st c = Some cs ->
  (exists c1 st1,
     Append_args c [] st = Ret c1 st1 /\
     chain_seq st1 c1 = Some cs /\
     chain_seq st1 c = Some cs /\
     (cs <> [] ->
        exists l,
          base (constructors c1) = Some l /\
          length (heap st) <= l < length (heap st1) /\
          base (constructors c) <> Some l) /\
     (cs = [] -> constructors c1 = nil_slice) /\
     forall cnx h,
       observe (ThenWithContext c1 cnx h st1) =
       observe (ThenWithContext c cnx h st)) /\
  (exists e c2 st2,
     New_args [] st = Ret e st /\
     Extend c e st = Ret c2 st2 /\
     chain_seq st2 c2 = Some cs /\
     chain_seq st2 c = Some cs /\
     (cs <> [] ->
        exists l,
          base (constructors c2) = Some l /\
          length (heap st) <= l < length (heap st2) /\
          base (constructors c) <> Some l) /\
     (cs = [] -> constructors c2 = nil_slice) /\
     forall cnx h,
       observe (ThenWithContext c2 cnx h st2) =
       observe (ThenWithContext c cnx h st)).
Proof.
  intros Hc.
  pose proof (slice_elems_length _ _ _ Hc) as Hn.
  destruct (Append_spec st c nil_slice cs [] Hc) as (c2 & st2 & HA & Ha & Hseq & Hf);
    [done|].
  rewrite app_nil_r in Hseq.
  assert ((cs <> [] ->
             exists l,
               base (constructors c2) = Some l /\
               length (heap st) <= l < length (heap st2) /\
               base (constructors c) <> Some l) /\
          (cs = [] -> constructors c2 = nil_slice) /\
          forall cnx h,
            observe (ThenWithContext c2 cnx h st2) =
            observe (ThenWithContext c cnx h st)) as Hres.
  { split; [|split].
    - intros Hne. apply (fresh_cells st st2 c c2 cs cs 0); [done|done|done|].
      destruct cs; [done|cbn; lia].
    - intros ->. by apply (Append_of_nothing _ _ _ _ _ HA).
    - intros cnx h.
      rewrite (ThenWithContext_observe st2 c2 cs), (ThenWithContext_observe st c cs)
        by done.
      by destruct Ha as (_ & -> & _). }
  split.
  - exists c2, st2. split; [done|]. split; [done|].
    split; [by eapply only_allocates_seq|done].
  - exists (mkChain nil_slice), c2, st2. split; [by destruct st|].
    split; [done|]. split; [done|].
    split; [by eapply only_allocates_seq|done].
Qed.

(** C7. For every chain, materialization leaves the store, and with it the
    sequence the chain holds, as it was, whatever its outcome, with
    [ThenWithContext] and with [ThenFuncWithContext] alike.  A call whose
    constructors all return gives back the adapter and has entered the
    stored constructors at the indices [n-1] down to [0], each exactly
    once; and a call that gave back an adapter can be followed by any
    other, which again is the full construction from the state it starts
    in and again enters each constructor once. *)
Theorem materialization_is_repeatable st c cs cnx h :
  chain_seq st c = Some cs ->
  heap (final_state (ThenWithContext c cnx h st)) = heap st /\
  chain_seq (final_state (ThenWithContext c cnx h st)) c = Some cs /\
  (forall fn,
     heap (final_state (ThenFuncWithContext c cnx fn st)) = heap st /\
     (fn <> None ->
        ThenFuncWithContext c cnx fn st = ThenWithContext c cnx (HFunc fn) st)) /\
  (forall final w,
     h <> HNil ->
     nested cs h (world st) = Ret final w ->
     ThenWithContext c cnx h st =
       Ret (NewContextAdapter cnx final)
           (mkState (heap st) w (seq 0 (length cs) ++ calls st))) /\
  (forall ca st',
     ThenWithContext c cnx h st = Ret ca st' ->
     calls st' = seq 0 (length cs) ++ calls st /\
     (forall i, i < length cs ->
        length (filter (fun j => j = i) (take (length cs) (calls st'))) = 1) /\
     forall cnx2 h2,
       observe (ThenWithContext c cnx2 h2 st') =
         materialized cs cnx2 h2 (world st') /\
       forall ca2 st2,
         ThenWithContext c cnx2 h2 st' = Ret ca2 st2 ->
         heap st2 = heap st /\
         calls st2 = seq 0 (length cs) ++ seq 0 (length cs) ++ calls st).
Proof.
  intros Hc.
  pose proof (ThenWithContext_heap st c cs cnx h Hc) as Hheap.
  split; [done|]. split; [|split; [|split]].
  - unfold chain_seq. rewrite Hheap. exact Hc.
  - intros fn. split.
    + destruct fn; cbn [ThenFuncWithContext];
        by apply (ThenWithContext_heap st c cs).
    + by destruct fn.
  - intros final w Hh Hnest. by apply ThenWithContext_returns.
  - intros ca st' Hrun.
    destruct (ThenWithContext_Ret_inv st c cs cnx h ca st' Hc Hrun)
      as (_ & final & _ & _ & Hheap' & Hcalls).
    assert (chain_seq st' c = Some cs) as Hc'.
    { unfold chain_seq. rewrite Hheap'. exact Hc. }
    split; [done|]. split.
    + intros i Hi. rewrite Hcalls.
      rewrite take_app_length' by (by rewrite length_seq).
      rewrite seq_occurs_once. by rewrite decide_True by lia.
    + intros cnx2 h2. split; [by apply ThenWithContext_observe|].
      intros ca2 st2 Hrun2.
      destruct (ThenWithContext_Ret_inv st' c cs cnx2 h2 ca2 st2 Hc' Hrun2)
        as (_ & final2 & _ & _ & Hheap2 & Hcalls2).
      split; [congruence|]. by rewrite Hcalls2, Hcalls.
Qed.

End Properties.

(** * Further properties of the package *)

Section Further.

Context {host : Host}.

Implicit Types (s xs : slice) (vs cs ds : list Constructor).
Implicit Types (st : State) (c d : Chain) (cnx : Ctx) (h : ContextHandler).

(** Nesting a concatenation: the constructors of the second part are
    applied first. *)
Lemma nested_app cs ds h w :
  nested (cs ++ ds) h w = ext_bind (nested ds h) (nested cs) w.
Proof.
  revert w. induction cs as [|f cs IH]; intros w; cbn [nested app].
  - unfold ext_bind, ext_ret. by destruct (nested ds h w).
  - unfold ext_bind at 1. rewrite IH. unfold ext_bind.
    by destruct (nested ds h w).
Qed.

(** The first [m] iterations of a loop started at index [k + m - 1], when
    the constructors they call all return. *)
Lemma then_loop_stage c cs k m :
  forall final st mid w,
    chain_seq st c = Some cs ->
    k + m <= length cs ->
    nested (take m (drop k cs)) final (world st) = Ret mid w ->
    then_loop c (k + m) final st =
      then_loop c k mid (mkState (heap st) w (seq k m ++ calls st)).
Proof.
  induction m as [|m IH]; intros final st mid w Hc Hle Hnest.
  - cbn in Hnest. injection Hnest as <- <-.
    rewrite Nat.add_0_r. cbn. by destruct st.
  - destruct (lookup_lt_is_Some_2 (drop k cs) m) as [f Hf].
    { rewrite length_drop. lia. }
    rewrite (take_S_r _ _ _ Hf), nested_snoc in Hnest.
    rewrite lookup_drop in Hf.
    replace (k + S m) with (S (k + m)) by lia.
    cbn [then_loop]. unfold bind at 1. rewrite (index_spec _ _ _ _ _ Hc Hf).
    unfold ext_bind in Hnest. unfold bind.
    destruct f as [g|]; cbn [invoke call_Constructor] in *; [|by cbn in Hnest].
    unfold lift. cbn [world log_call].
    destruct (g final (world st)) as [x w1|e w1]; [|done].
    rewrite (IH x _ mid w); [| done | lia | done].
    cbn [heap world calls set_world log_call].
    replace (seq k (S m) ++ calls st) with (seq k m ++ (k + m) :: calls st);
      [done|].
    rewrite seq_S, <- app_assoc. done.
Qed.

(** Materialization that meets a failing constructor: the constructors
    behind it have been entered, those before it never are. *)
Lemma then_fails_at st c pre f post cnx h mid w1 e w2 :
  chain_seq st c = Some (pre ++ f :: post) ->
  h <> HNil ->
  nested post h (world st) = Ret mid w1 ->
  call_Constructor f mid w1 = Err e w2 ->
  ThenWithContext c cnx h st =
    Err e (mkState (heap st) w2
             (match f with Some _ => [length pre] | None => [] end
              ++ seq (S (length pre)) (length post) ++ calls st)).
Proof.
  intros Hc Hh Hpost Hf.
  pose proof (slice_elems_length _ _ _ Hc) as Hn.
  rewrite length_app in Hn. cbn [length] in Hn.
  rewrite ThenWithContext_unfold by done. rewrite <- Hn.
  replace (length pre + S (length post)) with (S (length pre) + length post)
    by lia.
  rewrite (then_loop_stage c (pre ++ f :: post) _ _ h st mid w1);
    [| done | rewrite length_app; cbn; lia | ].
  2:{ cbn [world]. rewrite cons_middle, app_assoc.
      rewrite drop_app_length' by (rewrite length_app; cbn; lia).
      by rewrite firstn_all. }
  assert (chain_seq (mkState (heap st) w1
            (seq (S (length pre)) (length post) ++ calls st)) c
          = Some (pre ++ f :: post)) as Hc1 by done.
  cbn [then_loop]. unfold bind at 1.
  rewrite (index_spec _ _ (pre ++ f :: post) (length pre) f Hc1)
    by (by rewrite list_lookup_middle).
  unfold bind. destruct f as [g|]; cbn [invoke call_Constructor] in *.
  - unfold lift. cbn [world log_call]. by rewrite Hf.
  - unfold panic. by injection Hf as <- <-.
Qed.

(** A slice allocated after the store had [n] arrays is not affected by
    a write to one of those [n]. *)
Lemma slice_elems_overwrite hp s vs n l arr :
  slice_elems hp s = Some vs ->
  fresh_from n s ->
  l < n ->
  slice_elems (<[l := arr]> hp) s = Some vs.
Proof.
  unfold slice_elems, fresh_from. intros Hs Hfresh Hl.
  destruct (base s) as [b|]; [|done].
  by rewrite list_lookup_insert_ne by lia.
Qed.

Lemma observe_same_seq st st' c cs cnx h :
  chain_seq st c = Some cs ->
  chain_seq st' c = Some cs ->
  world st' = world st ->
  observe (ThenWithContext c cnx h st') = observe (ThenWithContext c cnx h st).
Proof.
  intros Hc Hc' Hw.
  rewrite (ThenWithContext_observe st' c cs), (ThenWithContext_observe st c cs)
    by done.
  by rewrite Hw.
Qed.

(** X1. [New] memorizes and does nothing else: for every readable
    argument slice it returns a chain that holds exactly the slice's
    elements, as many as the slice is long, in cells it allocated; no
    constructor is entered and the world is as before. *)
Theorem New_memorizes st xs vs :
  slice_elems (heap st) xs = Some vs ->
  exists c st',
    New xs st = Ret c st' /\
    chain_seq st' c = Some vs /\
    len (constructors c) = length vs /\
    fresh_from (length (heap st)) (constructors c) /\
    heap st `prefix_of` heap st' /\
    world st' = world st /\
    calls st' = calls st.
Proof.
  intros Hxs.
  destruct (New_spec st xs vs Hxs) as (c & st' & HNew & (Hp & Hw & Hcl) & Hseq & Hf).
  exists c, st'. split; [done|]. split; [done|].
  split; [by rewrite (slice_elems_length _ _ _ Hseq)|done].
Qed.

(** X2. The chain [New] returns is detached from its argument: however
    the array of the argument slice, or any other array that existed
    before the call, is overwritten afterwards, the chain holds the same
    sequence and materializes to the same. *)
Theorem New_detached_from_argument st xs vs :
  slice_elems (heap st) xs = Some vs ->
  exists c st',
    New xs st = Ret c st' /\
    forall l arr,
      l < length (heap st) ->
      chain_seq (overwrite st' l arr) c = Some vs /\
      forall cnx h,
        observe (ThenWithContext c cnx h (overwrite st' l arr)) =
        observe (ThenWithContext c cnx h st').
Proof.
  intros Hxs.
  destruct (New_spec st xs vs Hxs) as (c & st' & HNew & _ & Hseq & Hf).
  exists c, st'. split; [done|]. intros l arr Hl.
  assert (chain_seq (overwrite st' l arr) c = Some vs) as Hseq'
    by (by eapply slice_elems_overwrite).
  split; [done|]. intros cnx h. by eapply observe_same_seq.
Qed.

(** X3. The chain [Append] (and so [Extend]) returns is detached from the
    receiver and from the argument: however an array that existed before
    the call is overwritten afterwards, the result holds the receiver's
    sequence followed by the arguments and materializes to the same. *)
Theorem Append_detached st c xs cs more :
  chain_seq st c = Some cs ->
  slice_elems (heap st) xs = Some more ->
  exists c' st',
    Append c xs st = Ret c' st' /\
    Extend c (mkChain xs) st = Ret c' st' /\
    forall l arr,
      l < length (heap st) ->
      chain_seq (overwrite st' l arr) c' = Some (cs ++ more) /\
      forall cnx h,
        observe (ThenWithContext c' cnx h (overwrite st' l arr)) =
        observe (ThenWithContext c' cnx h st').
Proof.
  intros Hc Hxs.
  destruct (Append_spec st c xs cs more Hc Hxs) as (c' & st' & HA & _ & Hseq & Hf).
  exists c', st'. split; [done|]. split; [done|]. intros l arr Hl.
  assert (chain_seq (overwrite st' l arr) c' = Some (cs ++ more)) as Hseq'
    by (by eapply slice_elems_overwrite).
  split; [done|]. intros cnx h. by eapply observe_same_seq.
Qed.

(** X4. A failure of a constructor ends materialization with that very
    failure and no adapter: when the constructors behind the failing one
    return and the failing one, called on their result, panics or stops
    the process, [ThenWithContext] ends the same way in the world the
    failure left; the constructors behind it were entered once each, the
    failing one once unless it is a nil func, and none of those before
    it. *)
Theorem constructor_failure_propagates st c pre f post cnx h mid w1 e w2 :
  chain_seq st c = Some (pre ++ f :: post) ->
  h <> HNil ->
  nested post h (world st) = Ret mid w1 ->
  call_Constructor f mid w1 = Err e w2 ->
  ThenWithContext c cnx h st =
    Err e (mkState (heap st) w2
             (match f with Some _ => [length pre] | None => [] end
              ++ seq (S (length pre)) (length post) ++ calls st)) /\
  forall ca st', ThenWithContext c cnx h st <> Ret ca st'.
Proof.
  intros Hc Hh Hpost Hf.
  rewrite (then_fails_at st c pre f post cnx h mid w1 e w2) by done.
  by split.
Qed.

(** X5. [New] takes a nil constructor without complaint; the chain then
    cannot be materialized: once the constructors behind the nil one have
    returned, [ThenWithContext] panics on the call of the nil func, in
    the world they left, without entering the constructors before it. *)
Theorem nil_constructor_panics_late pre post cnx h st0 mid w1 :
  h <> HNil ->
  nested post h (world st0) = Ret mid w1 ->
  exists c st,
    New_args (pre ++ None :: post) st0 = Ret c st /\
    world st = world st0 /\
    calls st = calls st0 /\
    ThenWithContext c cnx h st =
      Err nil_dereference
          (mkState (heap st) w1
             (seq (S (length pre)) (length post) ++ calls st0)).
Proof.
  intros Hh Hpost.
  destruct (New_args_spec st0 (pre ++ None :: post))
    as (c & st & HNew & (_ & Hw & Hcl) & Hseq & _).
  exists c, st. do 3 (split; [done|]).
  rewrite (then_fails_at st c pre None post cnx h mid w1
             nil_dereference w1); [by rewrite Hcl|done|done| |done].
  by rewrite Hw.
Qed.

(** X6. Materializing [c.Extend(d)] against [h] goes in stages: it is
    materializing [d] against [h] and then [c] against the handler that
    came out, provided that handler is not nil (a nil one would stop
    [ThenWithContext] at its check, while inside the extended chain it is
    handed on to [c]'s last constructor); and when materializing [d]
    fails, so does materializing the extended chain, the same way. *)
Theorem Extend_materializes_in_stages st c d cs ds cnx h :
  chain_seq st c = Some cs ->
  chain_seq st d = Some ds ->
  h <> HNil ->
  exists e st1,
    Extend c d st = Ret e st1 /\
    match ThenWithContext d cnx h st with
    | Ret ca st2 =>
        handler ca <> HNil ->
        observe (ThenWithContext e cnx h st1) =
        observe (ThenWithContext c cnx (handler ca) st2)
    | Err f st2 =>
        observe (ThenWithContext e cnx h st1) = Err f (world st2)
    end.
Proof.
  intros Hc Hd Hh.
  destruct (Append_spec st c (constructors d) cs ds Hc Hd)
    as (e & st1 & HA & (_ & Hw & _) & Hseq & _).
  exists e, st1. split; [done|].
  rewrite (ThenWithContext_observe st1 e (cs ++ ds)) by done.
  unfold materialized. rewrite Hw, nested_app.
  destruct (is_nil h) eqn:Hnil; [by destruct h|].
  unfold ext_bind.
  destruct (nested ds h (world st)) as [mid w|f w] eqn:Hnest.
  - rewrite (ThenWithContext_returns st d ds cnx h mid w) by done.
    cbn [handler NewContextAdapter]. intros Hmid.
    rewrite (ThenWithContext_observe _ c cs) by done.
    unfold materialized. cbn [world]. by destruct mid.
  - rewrite ThenWithContext_unfold by done.
    destruct (then_loop_full st d ds h Hd) as (j & _ & Hrun).
    rewrite Hnest in Hrun. by rewrite Hrun.
Qed.

(** X7. Appending in two calls is appending in one:
    [c.Append(xs...).Append(ys...)] and [c.Append(xs..., ys...)] hold the
    same sequence, the receiver's followed by [xs] and [ys], and
    materialize to the same. *)
Theorem Append_twice_is_Append_once st c cs more1 more2 :
  chain_seq st c = Some cs ->
  exists c1 st1 c2 st2 c3 st3,
    Append_args c more1 st = Ret c1 st1 /\
    Append_args c1 more2 st1 = Ret c2 st2 /\
    Append_args c (more1 ++ more2) st = Ret c3 st3 /\
    chain_seq st2 c2 = Some (cs ++ more1 ++ more2) /\
    chain_seq st3 c3 = Some (cs ++ more1 ++ more2) /\
    forall cnx h,
      observe (ThenWithContext c2 cnx h st2) =
      observe (ThenWithContext c3 cnx h st3).
Proof.
  intros Hc.
  destruct (Append_args_spec st c cs more1 Hc)
    as (c1 & st1 & HA1 & (_ & Hw1 & _) & Hseq1 & _).
  destruct (Append_args_spec st1 c1 (cs ++ more1) more2 Hseq1)
    as (c2 & st2 & HA2 & (_ & Hw2 & _) & Hseq2 & _).
  destruct (Append_args_spec st c cs (more1 ++ more2) Hc)
    as (c3 & st3 & HA3 & (_ & Hw3 & _) & Hseq3 & _).
  rewrite <- app_assoc in Hseq2.
  exists c1, st1, c2, st2, c3, st3. do 5 (split; [done|]).
  intros cnx h.
  rewrite (ThenWithContext_observe st2 c2 _ cnx h Hseq2).
  rewrite (ThenWithContext_observe st3 c3 _ cnx h Hseq3).
  by rewrite Hw2, Hw1, Hw3.
Qed.

(** X8. [Extend] is associative as far as a client can tell:
    [a.Extend(b).Extend(c)] and [a.Extend(b.Extend(c))] hold the same
    sequence and materialize to the same, and the three chains they were
    built from hold what they held. *)
Theorem Extend_assoc st c1 c2 c3 cs1 cs2 cs3 :
  chain_seq st c1 = Some cs1 ->
  chain_seq st c2 = Some cs2 ->
  chain_seq st c3 = Some cs3 ->
  exists c12 st12 l st_l c23 st23 r st_r,
    Extend c1 c2 st = Ret c12 st12 /\
    Extend c12 c3 st12 = Ret l st_l /\
    Extend c2 c3 st = Ret c23 st23 /\
    Extend c1 c23 st23 = Ret r st_r /\
    chain_seq st_l l = Some (cs1 ++ cs2 ++ cs3) /\
    chain_seq st_r r = Some (cs1 ++ cs2 ++ cs3) /\
    (forall cnx h,
       observe (ThenWithContext l cnx h st_l) =
       observe (ThenWithContext r cnx h st_r)) /\
    (chain_seq st_l c1 = Some cs1 /\ chain_seq st_l c2 = Some cs2 /\
     chain_seq st_l c3 = Some cs3) /\
    (chain_seq st_r c1 = Some cs1 /\ chain_seq st_r c2 = Some cs2 /\
     chain_seq st_r c3 = Some cs3).
Proof.
  intros H1 H2 H3.
  destruct (Append_spec st c1 (constructors c2) cs1 cs2 H1 H2)
    as (c12 & st12 & HA12 & Ha12 & Hseq12 & _).
  destruct (Append_spec st12 c12 (constructors c3) (cs1 ++ cs2) cs3 Hseq12)
    as (l & st_l & HAl & Hal & Hseql & _); [by eapply only_allocates_seq|].
  destruct (Append_spec st c2 (constructors c3) cs2 cs3 H2 H3)
    as (c23 & st23 & HA23 & Ha23 & Hseq23 & _).
  destruct (Append_spec st23 c1 (constructors c23) cs1 (cs2 ++ cs3))
    as (r & st_r & HAr & Har & Hseqr & _); [by eapply only_allocates_seq|done|].
  rewrite <- app_assoc in Hseql.
  pose proof (only_allocates_trans _ _ _ Ha12 Hal) as Hl.
  pose proof (only_allocates_trans _ _ _ Ha23 Har) as Hr.
  exists c12, st12, l, st_l, c23, st23, r, st_r. do 6 (split; [done|]).
  split; [|split].
  - intros cnx h.
    rewrite (ThenWithContext_observe st_l l _ cnx h Hseql).
    rewrite (ThenWithContext_observe st_r r _ cnx h Hseqr).
    destruct Hl as (_ & -> & _). by destruct Hr as (_ & -> & _).
  - repeat split; by eapply only_allocates_seq.
  - repeat split; by eapply only_allocates_seq.
Qed.

(** X9. The empty chain is a left unit: [New().Extend(c)], like
    [New().Append(cs...)] and [New(cs...)], holds the sequence of [c], in
    cells of its own, and materializes to what [c] materializes to. *)
Theorem Extend_left_unit st c cs :
  chain_seq st c = Some cs ->
  exists e1 st1 e2 st2 e3 st3,
    (let* e := New_args [] in Extend e c) st = Ret e1 st1 /\
    (let* e := New_args [] in Append_args e cs) st = Ret e2 st2 /\
    New_args cs st = Ret e3 st3 /\
    chain_seq st1 e1 = Some cs /\
    chain_seq st2 e2 = Some cs /\
    chain_seq st3 e3 = Some cs /\
    fresh_from (length (heap st)) (constructors e1) /\
    forall cnx h,
      observe (ThenWithContext e1 cnx h st1) =
        observe (ThenWithContext c cnx h st) /\
      observe (ThenWithContext e2 cnx h st2) =
        observe (ThenWithContext c cnx h st) /\
      observe (ThenWithContext e3 cnx h st3) =
        observe (ThenWithContext c cnx h st).
Proof.
  intros Hc.
  assert (New_args [] st = Ret (mkChain nil_slice) st) as HNew
    by (by destruct st).
  destruct (Append_spec st (mkChain nil_slice) (constructors c) [] cs)
    as (e1 & st1 & HA1 & (_ & Hw1 & _) & Hseq1 & Hf1); [done|done|].
  destruct (Append_args_spec st (mkChain nil_slice) [] cs)
    as (e2 & st2 & HA2 & (_ & Hw2 & _) & Hseq2 & _); [done|].
  destruct (New_args_spec st cs) as (e3 & st3 & HN3 & (_ & Hw3 & _) & Hseq3 & _).
  cbn [app] in Hseq1, Hseq2.
  exists e1, st1, e2, st2, e3, st3.
  split; [by unfold bind; rewrite HNew|].
  split; [by unfold bind; rewrite HNew|].
  do 5 (split; [done|]).
  intros cnx h. rewrite (ThenWithContext_observe st c cs cnx h Hc).
  rewrite (ThenWithContext_observe st1 e1 cs cnx h Hseq1).
  rewrite (ThenWithContext_observe st2 e2 cs cnx h Hseq2).
  rewrite (ThenWithContext_observe st3 e3 cs cnx h Hseq3).
  by rewrite Hw1, Hw2, Hw3.
Qed.

(** X10. [ThenFuncWithContext] with a function that is not nil never
    stops at the nil check, and a request dispatched through the adapter
    it returns reaches the function with the adapter's context, the
    response writer and the request, after the parts of the middlewares
    in the order of the chain. *)
Theorem ThenFuncWithContext_reaches_func st c befores cnx fn rw req :
  chain_seq st c = Some (pure_constructor <$> (wrapping <$> befores)) ->
  exists ca st',
    ThenFuncWithContext c cnx (Some fn) st = Ret ca st' /\
    ctx ca = cnx /\
    world st' = world st /\
    observe (ServeHTTP ca rw req st') =
      in_order befores (fn cnx rw req) cnx rw req (world st).
Proof.
  intros Hc. cbn [ThenFuncWithContext]. eexists _, _. split.
  { eapply (ThenWithContext_returns st c
              (pure_constructor <$> (wrapping <$> befores)) cnx (HFunc (Some fn)));
      [done|done|].
    apply nested_pure. }
  split; [done|]. split; [done|].
  unfold ServeHTTP, lift. cbn [handler ctx NewContextAdapter world].
  rewrite ServeHTTPContext_wrapping.
  change (traverse befores (HFunc (Some fn)) cnx rw req (world st))
    with (in_order befores (fn cnx rw req) cnx rw req (world st)).
  by destruct (in_order befores (fn cnx rw req) cnx rw req (world st)).
Qed.

(** X11. The nil check of [ThenWithContext] sees the nil interface value
    only.  A nil [ContextHandlerFunc] passed as the handler is taken:
    where [ThenFuncWithContext] with that nil function is fatal,
    [ThenWithContext] returns an adapter, and the panic comes with the
    first request, once the parts of the middlewares have run. *)
Theorem typed_nil_handler_is_accepted st c befores cnx rw req :
  chain_seq st c = Some (pure_constructor <$> (wrapping <$> befores)) ->
  ThenFuncWithContext c cnx None st =
    Err (Fatal "Error Contexthandler cant be null") st /\
  exists ca st',
    ThenWithContext c cnx (HFunc None) st = Ret ca st' /\
    world st' = world st /\
    observe (ServeHTTP ca rw req st') =
      in_order befores (fun w => Err nil_dereference w)
               cnx rw req (world st).
Proof.
  intros Hc. split; [done|]. eexists _, _. split.
  { eapply (ThenWithContext_returns st c
              (pure_constructor <$> (wrapping <$> befores)) cnx (HFunc None));
      [done|done|].
    apply nested_pure. }
  split; [done|].
  unfold ServeHTTP, lift. cbn [handler ctx NewContextAdapter world].
  rewrite ServeHTTPContext_wrapping.
  change (traverse befores (HFunc None) cnx rw req (world st))
    with (in_order befores (fun w => Err nil_dereference w)
            cnx rw req (world st)).
  by destruct (in_order befores _ cnx rw req (world st)).
Qed.

(** X12. [ThenWithContext] checks the terminal handler only: when the
    outermost constructor returns nil, the adapter that comes back holds
    the nil handler, and every request dispatched through it panics
    without any effect. *)
Theorem nil_result_is_not_checked st c cs cnx h w :
  chain_seq st c = Some cs ->
  h <> HNil ->
  nested cs h (world st) = Ret HNil w ->
  ThenWithContext c cnx h st =
    Ret (NewContextAdapter cnx HNil)
        (mkState (heap st) w (seq 0 (length cs) ++ calls st)) /\
  forall rw req st',
    ServeHTTP (NewContextAdapter cnx HNil) rw req st' =
      Err nil_dereference st'.
Proof.
  intros Hc Hh Hnest. split; [by apply ThenWithContext_returns|].
  intros rw req st'. by destruct st'.
Qed.

End Further.

(** * The properties at concrete inputs *)

Section Instances.

Import Demo.
#[local] Existing Instance demo_host.
#[local] Open Scope string_scope.

(** The states and chains of [Demo] are the ones the program builds. *)
Example demo_chains_built :
  (let* c := New_args [m1; m2] in let* d := New_args [m3; m4] in ret (c, d)) st0
  = Ret (stdChain, ext1) st1.
Proof. reflexivity. Qed.

(** Scenario of the spec: [m1] logs "A" and [m2] logs "B" before calling
    on, the terminal logs "C"; one request yields the log A, B, C. *)
Example scenario_log_order :
  (let* c := New_args [m1; m2] in
   let* ca := ThenWithContext c "ctx" (terminal "C") in
   ServeHTTP ca tt tt) st0
  = Ret tt (mkState [[m1; m2]; [m1; m2]] ["A"; "B"; "C"] [0; 1]).
Proof. reflexivity. Qed.

(** Scenario of the spec: [ext := stdChain.Append(m3, m4)]; a request
    through [stdChain] passes [m1, m2] only, one through [ext] passes
    [m1, m2, m3, m4]. *)
Example scenario_append :
  (let* std := New_args [m1; m2] in
   let* ext := Append_args std [m3; m4] in
   let* ca := ThenWithContext std "ctx" (terminal "h") in
   let* _ := ServeHTTP ca tt tt in
   let* ca' := ThenWithContext ext "ctx" (terminal "h'") in
   let* _ := ServeHTTP ca' tt tt in
   ret (constructors std, constructors ext)) st0
  = Ret (mkSlice (Some 1) 0 2 2, mkSlice (Some 4) 0 4 4)
        (mkState [[m1; m2]; [m1; m2]; [m3; m4]; [m1; m2; m3; m4];
                  [m1; m2; m3; m4]]
                 ["A"; "B"; "h"; "A"; "B"; "m3"; "m4"; "h'"]
                 [0; 1; 2; 3; 0; 1]).
Proof. reflexivity. Qed.

(** A nil constructor in the chain: materialization panics at its index,
    after the constructors behind it were entered. *)
Example nil_constructor_panics :
  (let* c := New_args [m1; None; m2] in
   ThenWithContext c "ctx" (terminal "C")) st0
  = Err nil_dereference
        (mkState [[m1; None; m2]; [m1; None; m2; None]] [] [2]).
Proof. reflexivity. Qed.

(** A nil func inside a non-nil interface value is not a nil handler:
    [h != nil] holds, an adapter comes back, and the panic waits for the
    first request. *)
Example typed_nil_func_is_not_nil :
  ThenWithContext stdChain "ctx" (HFunc None) st1 =
    Ret (NewContextAdapter "ctx"
           (wrapping (say "A") (wrapping (say "B") (HFunc None))))
        (mkState (heap st1) [] [0; 1]) /\
  (let* ca := ThenWithContext stdChain "ctx" (HFunc None) in
   ServeHTTP ca tt tt) st1
  = Err nil_dereference (mkState (heap st1) ["A"; "B"] [0; 1]).
Proof. split; reflexivity. Qed.

Lemma ThenWithContext_nests_in_order_witness :
  terminal "C" <> HNil /\
  exists c st,
    New_args [m1; m2] st0 = Ret c st /\
    observe (ThenWithContext c "ctx" (terminal "C") st) =
      Ret (NewContextAdapter "ctx"
             (wrapping (say "A") (wrapping (say "B") (terminal "C")))) [].
Proof.
  split; [discriminate|].
  destruct (ThenWithContext_nests_in_order (host := demo_host) [m1; m2] "ctx" (terminal "C") st0)
    as (c & st & HNew & Hall); [discriminate|].
  exists c, st. split; [exact HNew|].
  destruct (Hall st) as (Hobs & _); [reflexivity|].
  rewrite Hobs. vm_compute in HNew. injection HNew as <- <-. reflexivity.
Defined.

Lemma empty_chain_is_terminal_witness :
  terminal "C" <> HNil /\
  exists c,
    New_args [] st0 = Ret c st0 /\
    ThenWithContext c "ctx" (terminal "C") st1 =
      Ret (NewContextAdapter "ctx" (terminal "C")) st1.
Proof.
  split; [discriminate|].
  destruct (empty_chain_is_terminal (host := demo_host) "ctx" (terminal "C") st0)
    as (c & HNew & Hall); [discriminate|].
  exists c. split; [exact HNew|]. exact (proj1 (Hall st1)).
Defined.

Lemma Append_sequence_witness :
  chain_seq st1 stdChain = Some [m1; m2] /\
  slice_elems (heap st1) args34 = Some [m3; m4] /\
  exists c' st',
    Append stdChain args34 st1 = Ret c' st' /\
    chain_seq st' c' = Some [m1; m2; m3; m4] /\
    fresh_from (length (heap st1)) (constructors c').
Proof.
  split; [reflexivity|]. split; [reflexivity|].
  apply (Append_sequence (host := demo_host) st1 stdChain args34 [m1; m2] [m3; m4]); reflexivity.
Defined.

Lemma Extend_is_Append_witness :
  chain_seq st1 stdChain = Some [m1; m2] /\
  chain_seq st1 ext1 = Some [m3; m4] /\
  Extend stdChain ext1 st1 = Append stdChain (constructors ext1) st1.
Proof.
  split; [reflexivity|]. split; [reflexivity|].
  apply (Extend_is_Append (host := demo_host) st1 stdChain ext1 [m1; m2] [m3; m4]); reflexivity.
Defined.

Lemma Append_leaves_receiver_witness :
  chain_seq st1 stdChain = Some [m1; m2] /\
  slice_elems (heap st1) args34 = Some [m3; m4] /\
  exists c2 st',
    Append stdChain args34 st1 = Ret c2 st' /\
    chain_seq st' stdChain = Some [m1; m2].
Proof.
  split; [reflexivity|]. split; [reflexivity|].
  destruct (Append_leaves_receiver (host := demo_host) st1 stdChain args34 [m1; m2] [m3; m4])
    as (c2 & st' & HA & _ & _ & Hc1 & _); [reflexivity|reflexivity|].
  exists c2, st'. split; [exact HA|exact Hc1].
Defined.

Lemma Append_nothing_copies_witness :
  chain_seq st1 stdChain = Some [m1; m2] /\
  exists c1 st',
    Append_args stdChain [] st1 = Ret c1 st' /\
    chain_seq st' c1 = Some [m1; m2] /\
    base (constructors c1) <> base (constructors stdChain).
Proof.
  split; [reflexivity|].
  destruct (Append_nothing_copies (host := demo_host) st1 stdChain [m1; m2])
    as ((c1 & st' & HA & Hseq & _ & Hown & _) & _); [reflexivity|].
  exists c1, st'. split; [exact HA|]. split; [exact Hseq|].
  destruct Hown as (l & Hl & _ & Hne); [discriminate|].
  rewrite Hl. intros Heq. exact (Hne (eq_sym Heq)).
Defined.

(** C10 as it was stated fails for the empty chain: [New().Append()] and
    [New().Extend(New())] return the chain that holds the nil slice, so
    the result holds no array, allocated or other. *)
Lemma Append_nothing_on_empty_chain_is_nil :
  chain_seq st0 (mkChain nil_slice) = Some [] /\
  (let* c := New_args [] in Append_args c []) st0 =
    Ret (mkChain nil_slice) (mkState [[]] [] []) /\
  (let* c := New_args [] in let* e := New_args [] in Extend c e) st0 =
    Ret (mkChain nil_slice) (mkState [[]] [] []) /\
  ~ (forall st c cs,
       chain_seq st c = Some cs ->
       exists c1 st1 l,
         Append_args c [] st = Ret c1 st1 /\
         base (constructors c1) = Some l) /\
  ~ (forall st c cs,
       chain_seq st c = Some cs ->
       exists e st_e c2 st2 l,
         New_args [] st = Ret e st_e /\
         Extend c e st_e = Ret c2 st2 /\
         base (constructors c2) = Some l).
Proof.
  split; [reflexivity|]. split; [reflexivity|]. split; [reflexivity|].
  split.
  - intros Hall.
    destruct (Hall st0 (mkChain nil_slice) [] eq_refl) as (c1 & s1 & l & Hrun & Hl).
    vm_compute in Hrun. injection Hrun as <- <-. discriminate Hl.
  - intros Hall.
    destruct (Hall st0 (mkChain nil_slice) [] eq_refl)
      as (e & se & c2 & s2 & l & HNew & Hrun & Hl).
    vm_compute in HNew. injection HNew as <- <-.
    vm_compute in Hrun. injection Hrun as <- <-. discriminate Hl.
Qed.

Lemma materialization_is_repeatable_witness :
  chain_seq st1 stdChain = Some [m1; m2] /\
  heap (final_state (ThenWithContext stdChain "ctx" (terminal "C") st1)) = heap st1 /\
  chain_seq (final_state (ThenWithContext stdChain "ctx" (terminal "C") st1)) stdChain
    = Some [m1; m2].
Proof.
  split; [reflexivity|].
  destruct (materialization_is_repeatable (host := demo_host) st1 stdChain [m1; m2] "ctx" (terminal "C"))
    as (Hheap & Hseq & _); [reflexivity|].
  split; [exact Hheap|exact Hseq].
Defined.

Lemma New_memorizes_witness :
  slice_elems (heap st1) args34 = Some [m3; m4] /\
  exists c st',
    New args34 st1 = Ret c st' /\ chain_seq st' c = Some [m3; m4].
Proof.
  split; [reflexivity|].
  destruct (New_memorizes (host := demo_host) st1 args34 [m3; m4])
    as (c & st' & HNew & Hseq & _); [reflexivity|].
  exists c, st'. split; [exact HNew|exact Hseq].
Defined.

Lemma New_detached_from_argument_witness :
  slice_elems (heap st1) args34 = Some [m3; m4] /\
  exists c st',
    New args34 st1 = Ret c st' /\
    chain_seq (overwrite st' 2 [m1]) c = Some [m3; m4].
Proof.
  split; [reflexivity|].
  destruct (New_detached_from_argument (host := demo_host) st1 args34 [m3; m4])
    as (c & st' & HNew & Hall); [reflexivity|].
  exists c, st'. split; [exact HNew|].
  apply (Hall 2 [m1]). cbn. lia.
Defined.

Lemma Append_detached_witness :
  chain_seq st1 stdChain = Some [m1; m2] /\
  slice_elems (heap st1) args34 = Some [m3; m4] /\
  exists c' st',
    Append stdChain args34 st1 = Ret c' st' /\
    chain_seq (overwrite st' 1 [m4]) c' = Some [m1; m2; m3; m4].
Proof.
  split; [reflexivity|]. split; [reflexivity|].
  destruct (Append_detached (host := demo_host) st1 stdChain args34 [m1; m2] [m3; m4])
    as (c' & st' & HA & _ & Hall); [reflexivity|reflexivity|].
  exists c', st'. split; [exact HA|].
  apply (Hall 1 [m4]). cbn. lia.
Defined.

Lemma constructor_failure_propagates_witness :
  chain_seq st_failing failingChain = Some ([m1] ++ failing :: [m2])%list /\
  terminal "C" <> HNil /\
  nested [m2] (terminal "C") (world st_failing) =
    Ret (wrapping (say "B") (terminal "C")) [] /\
  call_Constructor failing (wrapping (say "B") (terminal "C")) [] =
    Err (Panic "boom") [] /\
  ThenWithContext failingChain "ctx" (terminal "C") st_failing =
    Err (Panic "boom") (mkState (heap st_failing) [] [1; 2]).
Proof.
  split; [reflexivity|]. split; [discriminate|].
  split; [reflexivity|]. split; [reflexivity|].
  apply (constructor_failure_propagates (host := demo_host)
           st_failing failingChain [m1] failing [m2] "ctx" (terminal "C")
           (wrapping (say "B") (terminal "C")) [] (Panic "boom") []);
    [reflexivity|discriminate|reflexivity|reflexivity].
Defined.

Lemma nil_constructor_panics_late_witness :
  terminal "C" <> HNil /\
  nested [m2] (terminal "C") (world st0) =
    Ret (wrapping (say "B") (terminal "C")) [] /\
  exists c st,
    New_args ([m1] ++ None :: [m2])%list st0 = Ret c st /\
    ThenWithContext c "ctx" (terminal "C") st =
      Err nil_dereference (mkState (heap st) [] [2]).
Proof.
  split; [discriminate|]. split; [reflexivity|].
  destruct (nil_constructor_panics_late (host := demo_host)
              [m1] [m2] "ctx" (terminal "C") st0
              (wrapping (say "B") (terminal "C")) [])
    as (c & st & HNew & _ & _ & Hrun); [discriminate|reflexivity|].
  exists c, st. split; [exact HNew|exact Hrun].
Defined.

Lemma Extend_materializes_in_stages_witness :
  chain_seq st1 stdChain = Some [m1; m2] /\
  chain_seq st1 ext1 = Some [m3; m4] /\
  terminal "C" <> HNil /\
  exists e st', Extend stdChain ext1 st1 = Ret e st'.
Proof.
  split; [reflexivity|]. split; [reflexivity|]. split; [discriminate|].
  destruct (Extend_materializes_in_stages (host := demo_host)
              st1 stdChain ext1 [m1; m2] [m3; m4] "ctx" (terminal "C"))
    as (e & st' & HE & _); [reflexivity|reflexivity|discriminate|].
  exists e, st'. exact HE.
Defined.

Lemma Append_twice_is_Append_once_witness :
  chain_seq st1 stdChain = Some [m1; m2] /\
  exists c2 st2 c3 st3,
    (let* c1 := Append_args stdChain [m3] in Append_args c1 [m4]) st1
      = Ret c2 st2 /\
    Append_args stdChain [m3; m4] st1 = Ret c3 st3 /\
    chain_seq st2 c2 = chain_seq st3 c3.
Proof.
  split; [reflexivity|].
  destruct (Append_twice_is_Append_once (host := demo_host)
              st1 stdChain [m1; m2] [m3] [m4])
    as (c1 & st1' & c2 & st2 & c3 & st3 & HA1 & HA2 & HA3 & Hs2 & Hs3 & _);
    [reflexivity|].
  exists c2, st2, c3, st3. split; [|split; [exact HA3|]].
  - unfold bind. rewrite HA1. exact HA2.
  - rewrite Hs2, Hs3. reflexivity.
Defined.

Lemma Extend_assoc_witness :
  chain_seq st1 stdChain = Some [m1; m2] /\
  chain_seq st1 ext1 = Some [m3; m4] /\
  exists l st_l r st_r,
    (let* c12 := Extend stdChain ext1 in Extend c12 stdChain) st1 = Ret l st_l /\
    (let* c23 := Extend ext1 stdChain in Extend stdChain c23) st1 = Ret r st_r /\
    chain_seq st_l l = chain_seq st_r r.
Proof.
  split; [reflexivity|]. split; [reflexivity|].
  destruct (Extend_assoc (host := demo_host)
              st1 stdChain ext1 stdChain [m1; m2] [m3; m4] [m1; m2])
    as (c12 & st12 & l & st_l & c23 & st23 & r & st_r
        & H12 & Hl & H23 & Hr & Hsl & Hsr & _);
    [reflexivity|reflexivity|reflexivity|].
  exists l, st_l, r, st_r. split; [|split].
  - unfold bind. rewrite H12. exact Hl.
  - unfold bind. rewrite H23. exact Hr.
  - rewrite Hsl, Hsr. reflexivity.
Defined.

Lemma Extend_left_unit_witness :
  chain_seq st1 stdChain = Some [m1; m2] /\
  exists e1 st',
    (let* e := New_args [] in Extend e stdChain) st1 = Ret e1 st' /\
    chain_seq st' e1 = Some [m1; m2].
Proof.
  split; [reflexivity|].
  destruct (Extend_left_unit (host := demo_host) st1 stdChain [m1; m2])
    as (e1 & st' & _ & _ & _ & _ & HE & _ & _ & Hseq & _); [reflexivity|].
  exists e1, st'. split; [exact HE|exact Hseq].
Defined.

Lemma ThenFuncWithContext_reaches_func_witness :
  chain_seq st1 stdChain =
    Some (pure_constructor <$> (wrapping <$> [say "A"; say "B"])) /\
  exists ca st',
    ThenFuncWithContext stdChain "ctx" (Some (say "F")) st1 = Ret ca st' /\
    observe (ServeHTTP ca tt tt st') = Ret tt ["A"; "B"; "F"].
Proof.
  split; [reflexivity|].
  destruct (ThenFuncWithContext_reaches_func (host := demo_host)
              st1 stdChain [say "A"; say "B"] "ctx" (say "F") tt tt)
    as (ca & st' & Hrun & _ & _ & Hobs); [reflexivity|].
  exists ca, st'. split; [exact Hrun|]. rewrite Hobs. reflexivity.
Defined.

Lemma typed_nil_handler_is_accepted_witness :
  chain_seq st1 stdChain =
    Some (pure_constructor <$> (wrapping <$> [say "A"; say "B"])) /\
  exists ca st',
    ThenWithContext stdChain "ctx" (HFunc None) st1 = Ret ca st' /\
    observe (ServeHTTP ca tt tt st') =
      Err nil_dereference ["A"; "B"].
Proof.
  split; [reflexivity|].
  destruct (typed_nil_handler_is_accepted (host := demo_host)
              st1 stdChain [say "A"; say "B"] "ctx" tt tt)
    as (_ & ca & st' & Hrun & _ & Hobs); [reflexivity|].
  exists ca, st'. split; [exact Hrun|]. rewrite Hobs. reflexivity.
Defined.

Lemma nil_result_is_not_checked_witness :
  chain_seq st_nil nilChain = Some [returns_nil] /\
  terminal "C" <> HNil /\
  nested [returns_nil] (terminal "C") (world st_nil) = Ret HNil [] /\
  ThenWithContext nilChain "ctx" (terminal "C") st_nil =
    Ret (NewContextAdapter "ctx" HNil) (mkState (heap st_nil) [] [0]).
Proof.
  split; [reflexivity|]. split; [discriminate|]. split; [reflexivity|].
  apply (nil_result_is_not_checked (host := demo_host)
           st_nil nilChain [returns_nil] "ctx" (terminal "C") []);
    [reflexivity|discriminate|reflexivity].
Defined.

End Instances.
